(** * GovProcureChain: the hash-linked audit ledger of [blockchain.py]

    A shallow embedding of [src/blockchain.py]: the canonical JSON encoder,
    SHA-256 fingerprinting of blocks, the [Blockchain] object with its
    genesis block, [add_block] and [is_valid], followed by the properties
    of the ledger.

    Conventions of the model.
    - A Python [str] is represented by its UTF-8 text, a Rocq [string]
      (a sequence of bytes).  With [ensure_ascii=False] the JSON encoder
      touches ASCII characters only, which are single bytes of that text,
      and Python's code point order on [str] is the byte order of the
      UTF-8 text; [str.encode("utf-8")] is then the list of bytes of the
      text.  Strings holding lone surrogates (which [encode] rejects) have
      no representation here.
    - A Python [int] is a [Z].  Values of type [float] are outside the
      model.
    - A Python [dict] is an association list in insertion order; Python
      keeps its keys distinct.
    - Methods run in a state and exception monad over the [Blockchain]
      object and the wall clock read by [utc_now_iso].  Blocks are
      mutable objects held by the chain; overwriting a stored block in
      place is [tamper]. *)

From Stdlib Require Import ZArith Lia List Bool Ascii String Decimal
  DecimalString DecimalPos DecimalZ Permutation Sorted.
From stdpp Require Import base list strings.
From Stdlib Require Import PrimFloat SpecFloat FloatOps FloatAxioms.
From stdpp Require Import gmap.

Import ListNotations.
Local Open Scope Z_scope.

(** * SHA-256 ([hashlib.sha256], FIPS 180-4) *)

Module SHA256.

(** 32-bit words are integers in [0, 2^32); additions wrap around. *)
Definition wrap (x : Z) : Z := x mod 4294967296.

Definition add32 (x y : Z) : Z := wrap (x + y).

Definition rotr (n x : Z) : Z :=
  Z.lor (Z.shiftr x n) (wrap (Z.shiftl x (32 - n))).

Definition shr (n x : Z) : Z := Z.shiftr x n.

Definition not32 (x : Z) : Z := Z.lxor x 4294967295.

Definition Ch (x y z : Z) : Z :=
  Z.lxor (Z.land x y) (Z.land (not32 x) z).

Definition Maj (x y z : Z) : Z :=
  Z.lxor (Z.lxor (Z.land x y) (Z.land x z)) (Z.land y z).

Definition Sigma0 (x : Z) : Z :=
  Z.lxor (Z.lxor (rotr 2 x) (rotr 13 x)) (rotr 22 x).

Definition Sigma1 (x : Z) : Z :=
  Z.lxor (Z.lxor (rotr 6 x) (rotr 11 x)) (rotr 25 x).

Definition sigma0 (x : Z) : Z :=
  Z.lxor (Z.lxor (rotr 7 x) (rotr 18 x)) (shr 3 x).

Definition sigma1 (x : Z) : Z :=
  Z.lxor (Z.lxor (rotr 17 x) (rotr 19 x)) (shr 10 x).

(** The round constants: the first 32 bits of the fractional parts of
    the cube roots of the first sixty-four primes. *)
Definition K : list Z :=
  [
    1116352408; 1899447441; 3049323471; 3921009573;
    961987163; 1508970993; 2453635748; 2870763221;
    3624381080; 310598401; 607225278; 1426881987;
    1925078388; 2162078206; 2614888103; 3248222580;
    3835390401; 4022224774; 264347078; 604807628;
    770255983; 1249150122; 1555081692; 1996064986;
    2554220882; 2821834349; 2952996808; 3210313671;
    3336571891; 3584528711; 113926993; 338241895;
    666307205; 773529912; 1294757372; 1396182291;
    1695183700; 1986661051; 2177026350; 2456956037;
    2730485921; 2820302411; 3259730800; 3345764771;
    3516065817; 3600352804; 4094571909; 275423344;
    430227734; 506948616; 659060556; 883997877;
    958139571; 1322822218; 1537002063; 1747873779;
    1955562222; 2024104815; 2227730452; 2361852424;
    2428436474; 2756734187; 3204031479; 3329325298
  ].

(** The eight working variables, also the chaining value. *)
Record regs : Type := Regs {
  ra : Z; rb : Z; rc : Z; rd : Z; re : Z; rf : Z; rg : Z; rh : Z
}.

(** The initial chaining value: the first 32 bits of the fractional parts
    of the square roots of the first eight primes. *)
Definition H0 : regs :=
  Regs 1779033703 3144134277 1013904242 2773480762
       1359893119 2600822924 528734635 1541459225.

(** Padding: a 1 bit, zeros up to 56 mod 64 bytes, then the bit length
    of the message as a 64-bit big-endian integer. *)
Fixpoint be_bytes (n : nat) (x : Z) : list Z :=
  match n with
  | O => []
  | S n' => ((x / 256 ^ Z.of_nat n') mod 256) :: be_bytes n' x
  end.

Definition pad (msg : list Z) : list Z :=
  let len := Z.of_nat (length msg) in
  let zeros := Z.to_nat ((55 - len) mod 64) in
  msg ++ [128] ++ repeat 0 zeros ++ be_bytes 8 (8 * len).

(** Big-endian 32-bit words of a byte sequence whose length is a
    multiple of four. *)
Fixpoint words (bs : list Z) : list Z :=
  match bs with
  | b0 :: b1 :: b2 :: b3 :: rest =>
      (((b0 * 256 + b1) * 256 + b2) * 256 + b3) :: words rest
  | _ => []
  end.

(** Sixteen-word blocks of a word sequence. *)
Fixpoint blocks (fuel : nat) (ws : list Z) : list (list Z) :=
  match fuel with
  | O => []
  | S fuel' =>
      match ws with
      | [] => []
      | _ => firstn 16 ws :: blocks fuel' (skipn 16 ws)
      end
  end.

(** Message schedule: [extend n w] appends W_16 .. W_(16+n-1) to the
    sixteen words of a block.  The window holds the last sixteen words. *)
Fixpoint extend (n : nat) (window : list Z) : list Z :=
  match n with
  | O => []
  | S n' =>
      let w16 := nth 0 window 0 in
      let w15 := nth 1 window 0 in
      let w7 := nth 9 window 0 in
      let w2 := nth 14 window 0 in
      let w := add32 (add32 (add32 (sigma1 w2) w7) (sigma0 w15)) w16 in
      w :: extend n' (tl window ++ [w])
  end.

Definition schedule (block : list Z) : list Z := block ++ extend 48 block.

Definition round (r : regs) (kw : Z * Z) : regs :=
  let k := fst kw in
  let w := snd kw in
  let t1 :=
    add32 (add32 (add32 (add32 (rh r) (Sigma1 (re r)))
                        (Ch (re r) (rf r) (rg r))) k) w in
  let t2 := add32 (Sigma0 (ra r)) (Maj (ra r) (rb r) (rc r)) in
  Regs (add32 t1 t2) (ra r) (rb r) (rc r) (add32 (rd r) t1)
       (re r) (rf r) (rg r).

Definition compress (h : regs) (block : list Z) : regs :=
  let r := fold_left round (combine K (schedule block)) h in
  Regs (add32 (ra h) (ra r)) (add32 (rb h) (rb r))
       (add32 (rc h) (rc r)) (add32 (rd h) (rd r))
       (add32 (re h) (re r)) (add32 (rf h) (rf r))
       (add32 (rg h) (rg r)) (add32 (rh h) (rh r)).

Definition digest (msg : list Z) : regs :=
  let ws := words (pad msg) in
  fold_left compress (blocks (length ws) ws) H0.

(** [hexdigest]: lower-case hexadecimal, eight digits per word. *)
Definition hexdigit (x : Z) : ascii :=
  if x <? 10 then ascii_of_N (Z.to_N (48 + x))
  else ascii_of_N (Z.to_N (87 + x)).

Definition hex8 (w : Z) : string :=
  String (hexdigit ((w / 268435456) mod 16))
 (String (hexdigit ((w / 16777216) mod 16))
 (String (hexdigit ((w / 1048576) mod 16))
 (String (hexdigit ((w / 65536) mod 16))
 (String (hexdigit ((w / 4096) mod 16))
 (String (hexdigit ((w / 256) mod 16))
 (String (hexdigit ((w / 16) mod 16))
 (String (hexdigit (w mod 16)) EmptyString))))))).

Definition hexdigest (r : regs) : string :=
  hex8 (ra r) +:+ hex8 (rb r) +:+ hex8 (rc r) +:+ hex8 (rd r) +:+
  hex8 (re r) +:+ hex8 (rf r) +:+ hex8 (rg r) +:+ hex8 (rh r).

End SHA256.

(** [data] is a [bytes] object: the bytes of the string. *)
Definition bytes_of (data : string) : list Z :=
  map (fun c => Z.of_N (N_of_ascii c)) (list_ascii_of_string data).

(** [sha256_hex(data)]: [hashlib.sha256(data).hexdigest()]. *)
Definition sha256_hex (data : string) : string :=
  SHA256.hexdigest (SHA256.digest (bytes_of data)).

(** * Python values, exceptions *)

Inductive exn : Type :=
| TypeError    (* raised by [json.dumps]: value not JSON serializable,
                  and by [copy.deepcopy]: value that cannot be copied *)
| IndexError.  (* raised by list indexing out of range *)

Inductive result (A : Type) : Type :=
| Ok (a : A)
| Raise (e : exn).
Arguments Ok {A} a.
Arguments Raise {A} e.

(** The values a payload is made of: [None], [bool], [int], [str],
    [list], [dict] with [str] keys, and three kinds of objects that are
    no JSON values:
    - [PObject]: an object that [copy.deepcopy] copies and [json.dumps]
      has no encoding for (a [set], [bytes], an instance of a class that
      is not a dataclass);
    - [PData]: an instance of a dataclass, given by its fields in
      declaration order; [asdict] turns it into a dict, [json.dumps] has
      no encoding for it;
    - [PUncopyable]: an object that [copy.deepcopy] refuses with a
      [TypeError] (a lock, a generator, an open file).
    A [float], a [tuple] and a dict with keys that are not [str] are not
    among these values: [json.dumps] writes them as a number (or [NaN],
    [Infinity]), as an array and with the keys turned into strings. *)
#[local] Unset Elimination Schemes.
Inductive pyval : Type :=
| PNone
| PBool (b : bool)
| PInt (n : Z)
| PStr (s : string)
| PList (l : list pyval)
| PDict (d : list (string * pyval))
| PObject (id : nat)
| PData (fields : list (string * pyval))
| PUncopyable (id : nat).
#[local] Set Elimination Schemes.

Abbreviation pydict := (list (string * pyval)).

(** * [json.dumps(obj, sort_keys, separators=(",", ":"), ensure_ascii=False)] *)

Definition quote : ascii := "034"%char.

Definition hex_lower (n : N) : ascii :=
  if (n <? 10)%N then ascii_of_N (48 + n) else ascii_of_N (87 + n).

(** The replacement of one character inside a JSON string: quote and
    backslash are escaped, control characters below 0x20 have a short
    escape or [\u00XX]; every other character stands for itself. *)
Definition escape_char (c : ascii) : string :=
  match N_of_ascii c with
  | 34%N => String "\"%char (String quote "")
  | 92%N => "\\"
  | 8%N => "\b"
  | 12%N => "\f"
  | 10%N => "\n"
  | 13%N => "\r"
  | 9%N => "\t"
  | n =>
      if (n <? 32)%N
      then "\u00" +:+ String (hex_lower (n / 16)) (String (hex_lower (n mod 16)) "")
      else String c ""
  end.

Fixpoint escape (s : string) : string :=
  match s with
  | EmptyString => ""
  | String c s' => escape_char c +:+ escape s'
  end.

Definition encode_basestring (s : string) : string :=
  String quote (escape s +:+ String quote "").

(** [int.__repr__]: decimal digits, with a minus sign below zero.  The
    interpreter refuses to convert an [int] of more than 4300 digits
    ([ValueError], unless [sys.set_int_max_str_digits] lifts the limit);
    such numbers are left to [within_limits] below. *)
Definition int_repr (n : Z) : string := NilZero.string_of_int (Z.to_int n).

Fixpoint join (sep : string) (l : list string) : string :=
  match l with
  | [] => ""
  | [x] => x
  | x :: l' => x +:+ sep +:+ join sep l'
  end.

(** [sorted(items)] on the items of a dict: ordered by key.  Keys are
    distinct, so the second components are never compared. *)
Fixpoint insert_item {A : Type} (x : string * A) (l : list (string * A))
  : list (string * A) :=
  match l with
  | [] => [x]
  | y :: l' =>
      if String.leb (fst x) (fst y) then x :: l else y :: insert_item x l'
  end.

Definition sorted {A : Type} (l : list (string * A)) : list (string * A) :=
  fold_right insert_item [] l.

Definition mapM {A B : Type} (f : A -> result B) : list A -> result (list B) :=
  fix go (l : list A) : result (list B) :=
    match l with
    | [] => Ok []
    | x :: l' =>
        match f x with
        | Raise e => Raise e
        | Ok y =>
            match go l' with
            | Raise e => Raise e
            | Ok ys => Ok (y :: ys)
            end
        end
    end.

(** One item of a dict: the key as a JSON string, a colon, the text of
    the value. *)
Definition dict_item (kv : string * string) : string :=
  encode_basestring (fst kv) +:+ ":" +:+ snd kv.

(** The encoder, with the separators and [ensure_ascii] that
    [canonical_json] passes.  It raises [TypeError] on an object it has no
    encoding for.  The items of a dict are encoded, then put in key order
    when [sort_keys] is set; the order looks at keys only, so this is the
    text of the items sorted first ([sorted_map] below).  The limits of
    the interpreter are not part of it: on a value that is not
    [within_limits] (an [int] of more than 4300 digits, nesting deeper than
    the recursion limit allows) [json.dumps] raises [ValueError] or
    [RecursionError] where this function goes on. *)
Fixpoint json_dumps (sort_keys : bool) (o : pyval) : result string :=
  match o with
  | PStr s => Ok (encode_basestring s)
  | PNone => Ok "null"
  | PBool true => Ok "true"
  | PBool false => Ok "false"
  | PInt n => Ok (int_repr n)
  | PList l =>
      match mapM (json_dumps sort_keys) l with
      | Raise e => Raise e
      | Ok chunks => Ok ("[" +:+ join "," chunks +:+ "]")
      end
  | PDict d =>
      match mapM (fun kv =>
                    match json_dumps sort_keys (snd kv) with
                    | Raise e => Raise e
                    | Ok text => Ok (fst kv, text)
                    end) d with
      | Raise e => Raise e
      | Ok items =>
          let items := if sort_keys then sorted items else items in
          Ok ("{" +:+ join "," (map dict_item items) +:+ "}")
      end
  | PObject _ => Raise TypeError
  | PData _ => Raise TypeError
  | PUncopyable _ => Raise TypeError
  end.

(** [canonical_json(obj)] *)
Definition canonical_json (obj : pyval) : result string :=
  json_dumps true obj.

(** [str.encode("utf-8")]: the text is already its UTF-8 bytes. *)
Definition encode_utf8 (s : string) : string := s.

(** * [dataclasses.asdict] *)

(** What [asdict] does to the value of a field ([_asdict_inner]): an
    instance of a dataclass becomes the dict of its fields, a list or a
    dict is rebuilt around its converted items, and any other value is
    copied with [copy.deepcopy], which raises [TypeError] on an object it
    cannot copy. *)
Fixpoint _asdict_inner (obj : pyval) : result pyval :=
  match obj with
  | PData fields =>
      match mapM (fun kv =>
                    match _asdict_inner (snd kv) with
                    | Raise e => Raise e
                    | Ok v => Ok (fst kv, v)
                    end) fields with
      | Raise e => Raise e
      | Ok items => Ok (PDict items)
      end
  | PList l =>
      match mapM _asdict_inner l with
      | Raise e => Raise e
      | Ok items => Ok (PList items)
      end
  | PDict d =>
      match mapM (fun kv =>
                    match _asdict_inner (snd kv) with
                    | Raise e => Raise e
                    | Ok v => Ok (fst kv, v)
                    end) d with
      | Raise e => Raise e
      | Ok items => Ok (PDict items)
      end
  | PUncopyable _ => Raise TypeError
  | _ => Ok obj
  end.

(** * Events and blocks *)

Record Event : Type := mkEvent {
  event_type : string;
  actor_role : string;
  actor_id : string;
  payload : pydict;
  ev_timestamp_utc : string     (* [timestamp_utc], [""] when not given *)
}.

Record Block : Type := mkBlock {
  index : Z;
  timestamp_utc : string;
  previous_hash : string;
  events : list pydict;
  nonce : Z;
  hash : string
}.

(** The object hashed by [compute_hash]: every field but [hash]. *)
Definition block_obj (b : Block) : pyval :=
  PDict [("index", PInt (index b));
         ("timestamp_utc", PStr (timestamp_utc b));
         ("previous_hash", PStr (previous_hash b));
         ("events", PList (map PDict (events b)));
         ("nonce", PInt (nonce b))].

(** [Block.compute_hash] *)
Definition compute_hash (b : Block) : result string :=
  match canonical_json (block_obj b) with
  | Raise e => Raise e
  | Ok text => Ok (sha256_hex (encode_utf8 text))
  end.

(** * The ledger object and its methods *)

(** The state a method runs in: the [chain] attribute of the [Blockchain]
    object, and the wall clock, given by its successive readings. *)
Record state : Type := mkState {
  chain : list Block;
  clock : nat -> string;
  ticks : nat
}.

(** A method returns a value or raises, and leaves a state either way. *)
Definition M (A : Type) : Type := state -> result A * state.

Definition ret {A : Type} (a : A) : M A := fun s => (Ok a, s).

Definition raise {A : Type} (e : exn) : M A := fun s => (Raise e, s).

Definition bind {A B : Type} (m : M A) (k : A -> M B) : M B :=
  fun s =>
    match m s with
    | (Ok a, s') => k a s'
    | (Raise e, s') => (Raise e, s')
    end.

Notation "'let*' x ':=' m 'in' k" := (bind m (fun x => k))
  (at level 10, x name, m at level 100, k at level 200).

Definition lift {A : Type} (r : result A) : M A := fun s => (r, s).

Definition get_chain : M (list Block) := fun s => (Ok (chain s), s).

Definition set_chain (c : list Block) : M unit :=
  fun s => (Ok tt, mkState c (clock s) (ticks s)).

(** [utc_now_iso()]: the next reading of the clock. *)
Definition utc_now_iso : M string :=
  fun s => (Ok (clock s (ticks s)), mkState (chain s) (clock s) (S (ticks s))).

Fixpoint forM {A B : Type} (f : A -> M B) (l : list A) : M (list B) :=
  match l with
  | [] => ret []
  | x :: l' => let* y := f x in let* ys := forM f l' in ret (y :: ys)
  end.

(** [Event.to_dict]: [asdict] puts the fields, in declaration order, into
    a fresh dict, the payload converted by [_asdict_inner] (the other
    fields are strings, copied as they are); it raises before the clock is
    read.  An empty timestamp is then replaced by the time of the call. *)
Definition to_dict (e : Event) : M pydict :=
  let* converted := lift (_asdict_inner (PDict (payload e))) in
  let* ts := (if String.eqb (ev_timestamp_utc e) "" then utc_now_iso
              else ret (ev_timestamp_utc e)) in
  ret [("event_type", PStr (event_type e));
       ("actor_role", PStr (actor_role e));
       ("actor_id", PStr (actor_id e));
       ("payload", converted);
       ("timestamp_utc", PStr ts)].

(** [s * n] on strings. *)
Fixpoint str_mul (s : string) (n : nat) : string :=
  match n with
  | O => ""
  | S n' => s +:+ str_mul s n'
  end.

(** ["0" * 64] *)
Definition zeros64 : string := str_mul "0" 64.

(** [Blockchain._create_genesis_block] *)
Definition _create_genesis_block : M unit :=
  let* t_block := utc_now_iso in
  let* t_event := utc_now_iso in
  let genesis :=
    mkBlock 0 t_block zeros64
      [[("event_type", PStr "GENESIS");
        ("actor_role", PStr "SYSTEM");
        ("actor_id", PStr "GOVPROCURECHAIN");
        ("payload",
         PDict [("message", PStr "Genesis block - chain initialized")]);
        ("timestamp_utc", PStr t_event)]]
      0 "" in
  let* h := lift (compute_hash genesis) in
  let genesis :=
    mkBlock (index genesis) (timestamp_utc genesis) (previous_hash genesis)
            (events genesis) (nonce genesis) h in
  let* c := get_chain in
  set_chain (c ++ [genesis]).

(** [Blockchain.__init__] *)
Definition __init__ : M unit :=
  let* u := set_chain [] in
  _create_genesis_block.

(** [Blockchain.add_block] *)
Definition add_block (evs : list Event) : M Block :=
  let* c := get_chain in
  let* prev := match last c with
               | Some b => ret b
               | None => raise IndexError
               end in
  let* event_dicts := forM to_dict evs in
  let* t := utc_now_iso in
  let block :=
    mkBlock (Z.of_nat (length c)) t (hash prev) event_dicts 0 "" in
  let* h := lift (compute_hash block) in
  let block :=
    mkBlock (index block) (timestamp_utc block) (previous_hash block)
            (events block) (nonce block) h in
  let* c' := get_chain in
  let* u := set_chain (c' ++ [block]) in
  ret block.

(** The body of the loop of [is_valid] at index [i], and the loop over
    the remaining indices of [range(1, len(self.chain))]. *)
Fixpoint is_valid_loop (c : list Block) (range : list nat) : result bool :=
  match range with
  | [] => Ok true
  | i :: range' =>
      match c !! i, c !! (i - 1)%nat with
      | Some cur, Some prev =>
          if negb (String.eqb (previous_hash cur) (hash prev)) then Ok false
          else
            match compute_hash cur with
            | Raise e => Raise e
            | Ok expected =>
                if negb (String.eqb (hash cur) expected) then Ok false
                else is_valid_loop c range'
            end
      | _, _ => Raise IndexError
      end
  end.

(** [Blockchain.is_valid] *)
Definition is_valid : M bool :=
  let* c := get_chain in
  lift (is_valid_loop c (seq 1 (length c - 1))).

(** * Notions used to state the properties *)

(** The values [json.dumps] accepts. *)
Fixpoint serializable (v : pyval) : bool :=
  match v with
  | PList l => forallb serializable l
  | PDict d => forallb (fun kv => serializable (snd kv)) d
  | PObject _ => false
  | PData _ => false
  | PUncopyable _ => false
  | _ => true
  end.

(** The text [json.dumps] produces for a value it accepts. *)
Fixpoint render (sort_keys : bool) (v : pyval) : string :=
  match v with
  | PStr s => encode_basestring s
  | PNone => "null"
  | PBool true => "true"
  | PBool false => "false"
  | PInt n => int_repr n
  | PList l => "[" +:+ join "," (map (render sort_keys) l) +:+ "]"
  | PDict d =>
      let items := map (fun kv => (fst kv, render sort_keys (snd kv))) d in
      let items := if sort_keys then sorted items else items in
      "{" +:+ join "," (map dict_item items) +:+ "}"
  | PObject _ => ""
  | PData _ => ""
  | PUncopyable _ => ""
  end.

(** A value with every dict listed in key order.  Python's [==] ignores
    the insertion order of a dict: two values with distinct keys in each
    dict are equal for Python exactly when their [canon] forms are the
    same. *)
Fixpoint canon (v : pyval) : pyval :=
  match v with
  | PList l => PList (map canon l)
  | PDict d => PDict (sorted (map (fun kv => (fst kv, canon (snd kv))) d))
  | _ => v
  end.

(** What a block holds besides its [hash], dicts in key order. *)
Definition block_content (b : Block) : pyval := canon (block_obj b).

(** The events of a batch that [json.dumps] accepts. *)
Definition event_ok (e : Event) : bool := serializable (PDict (payload e)).

(** The values [copy.deepcopy] goes through: no object it refuses, at any
    depth. *)
Fixpoint copyable (v : pyval) : bool :=
  match v with
  | PUncopyable _ => false
  | PList l => forallb copyable l
  | PDict d | PData d => forallb (fun kv => copyable (snd kv)) d
  | _ => true
  end.

(** A value with every instance of a dataclass replaced by the dict of its
    fields. *)
Fixpoint as_dicts (v : pyval) : pyval :=
  match v with
  | PList l => PList (map as_dicts l)
  | PDict d | PData d => PDict (map (fun kv => (fst kv, as_dicts (snd kv))) d)
  | _ => v
  end.

(** The events whose payload [asdict] converts. *)
Definition event_copyable (e : Event) : bool := copyable (PDict (payload e)).

(** The events [add_block] takes: [asdict] converts the payload and
    [json.dumps] accepts what it gives. *)
Definition event_accepted (e : Event) : bool :=
  match _asdict_inner (PDict (payload e)) with
  | Ok converted => serializable converted
  | Raise _ => false
  end.


(** The limits of the interpreter, which [json_dumps] and [_asdict_inner]
    leave out: an [int] has at most 4300 digits, the default of
    [sys.get_int_max_str_digits()], and lists, dicts and dataclass
    instances are nested at most 100 deep, well below the several hundred
    levels at which the default recursion limit of 1000 frames stops
    [asdict] and [json.dumps]. *)
Fixpoint small_ints (v : pyval) : bool :=
  match v with
  | PInt n => Z.abs n <? 10 ^ 4300
  | PList l => forallb small_ints l
  | PDict d | PData d => forallb (fun kv => small_ints (snd kv)) d
  | _ => true
  end.

Fixpoint nesting (v : pyval) : nat :=
  match v with
  | PList l => S (list_max (map nesting l))
  | PDict d | PData d => S (list_max (map (fun kv => nesting (snd kv)) d))
  | _ => O
  end.

Definition within_limits (v : pyval) : bool :=
  small_ints v && (nesting v <=? 100)%nat.

Definition event_within_limits (e : Event) : bool :=
  within_limits (PDict (payload e)).

(** A stored block overwritten in place: [self.chain[i] = b]. *)
Definition tamper (i : nat) (b : Block) (s : state) : state :=
  mkState (<[i := b]> (chain s)) (clock s) (ticks s).

(** The states of a ledger: a [Blockchain] is constructed, then batches
    are appended; a failed append leaves the state it raised in. *)
Inductive reachable : state -> Prop :=
| reachable_init (s0 : state) : reachable (snd (__init__ s0))
| reachable_add_block (s : state) (evs : list Event) :
    reachable s -> reachable (snd (add_block evs s)).

(** [N] appends in sequence. *)
Fixpoint appends (batches : list (list Event)) (s : state) : state :=
  match batches with
  | [] => s
  | evs :: rest => appends rest (snd (add_block evs s))
  end.

(** The characters that start or continue a number. *)
Definition is_digit (c : ascii) : bool :=
  (48 <=? N_of_ascii c)%N && (N_of_ascii c <=? 57)%N.

Fixpoint all_digits (s : string) : bool :=
  match s with
  | EmptyString => true
  | String c s' => is_digit c && all_digits s'
  end.

(** What may follow a value in a JSON text: nothing, or a character that
    is not a digit. *)
Definition delim (r : string) : Prop :=
  match r with
  | EmptyString => True
  | String c _ => is_digit c = false
  end.

(** The kind of value a JSON text starts, read off its first character. *)
Definition kind_of_char (c : ascii) : nat :=
  if is_digit c then 2%nat
  else match N_of_ascii c with
       | 110%N => 0%nat               (* n *)
       | 116%N | 102%N => 1%nat       (* t, f *)
       | 45%N => 2%nat                (* - *)
       | 34%N => 3%nat
       | 91%N => 4%nat                (* [ *)
       | 123%N => 5%nat               (* { *)
       | _ => 7%nat
       end.

(** The kind of a value, as numbered by [kind_of_char]. *)
Definition kind (v : pyval) : nat :=
  match v with
  | PNone => 0%nat
  | PBool _ => 1%nat
  | PInt _ => 2%nat
  | PStr _ => 3%nat
  | PList _ => 4%nat
  | PDict _ => 5%nat
  | PObject _ => 6%nat
  | PData _ => 6%nat
  | PUncopyable _ => 6%nat
  end.

(** The rest of a list or dict after its first item. *)
Fixpoint items_tail (close : ascii) (chunks : list string) (r : string)
  : string :=
  match chunks with
  | [] => String close r
  | x :: rest => "," +:+ x +:+ items_tail close rest r
  end.

(** Every character, by code. *)
Definition all_ascii : list ascii := map ascii_of_nat (seq 0 256).

(** [v1] is the only value whose text can stand where the text of [v1]
    stands, whatever follows. *)
Definition unambiguous (v1 : pyval) : Prop :=
  serializable v1 = true ->
  forall (v2 : pyval) (r1 r2 : string),
    serializable v2 = true -> delim r1 -> delim r2 ->
    render false v1 +:+ r1 = render false v2 +:+ r2 ->
    v1 = v2 /\ r1 = r2.

(** The texts of the items of a dict, in the order they are stored. *)
Definition item_texts (d : pydict) : list string :=
  map dict_item (map (fun kv => (fst kv, render false (snd kv))) d).

(** The order of [sorted] on items: by key. *)
Definition key_le {A : Type} (x y : string * A) : Prop :=
  String.le (fst x) (fst y).

(** The dict [to_dict] makes of an event, with some timestamp. *)
Definition event_dict (e : Event) (d : pydict) : Prop :=
  exists ts : string,
    d = [("event_type", PStr (event_type e));
         ("actor_role", PStr (actor_role e));
         ("actor_id", PStr (actor_id e));
         ("payload", as_dicts (PDict (payload e)));
         ("timestamp_utc", PStr ts)].

(** The events of the genesis block: the one [GENESIS] event. *)
Definition genesis_events (t_event : string) : list pydict :=
  [[("event_type", PStr "GENESIS");
    ("actor_role", PStr "SYSTEM");
    ("actor_id", PStr "GOVPROCURECHAIN");
    ("payload", PDict [("message", PStr "Genesis block - chain initialized")]);
    ("timestamp_utc", PStr t_event)]].

(** Block [i] passes both checks of [is_valid]: its [previous_hash] is the
    stored [hash] of block [i - 1], and the recomputed digest is its own
    stored [hash]. *)
Definition passes (c : list Block) (i : nat) : Prop :=
  exists cur prev : Block,
    c !! i = Some cur /\ c !! (i - 1)%nat = Some prev /\
    previous_hash cur = hash prev /\
    compute_hash cur = Ok (hash cur).

(** Block [i] fails a check: the link, or else the recomputation. *)
Definition fails (c : list Block) (i : nat) : Prop :=
  exists cur prev : Block,
    c !! i = Some cur /\ c !! (i - 1)%nat = Some prev /\
    (previous_hash cur <> hash prev \/
     exists h : string, compute_hash cur = Ok h /\ h <> hash cur).

(** What holds of the chain in every state of the ledger: the genesis
    block is there, the block at position [i] has index [i], and every
    block after the first passes both checks. *)
Definition ledger_inv (c : list Block) : Prop :=
  c <> [] /\
  (forall (i : nat) (b : Block), c !! i = Some b -> index b = Z.of_nat i) /\
  (forall i : nat, (1 <= i < length c)%nat -> passes c i).

(** Two event dicts with the same items, but for the payload, whose items
    were inserted in another order. *)
Definition payload_reordered (d1 d2 : pydict) : Prop :=
  exists (pre post p1 p2 : pydict),
    d1 = pre ++ ("payload", PDict p1) :: post /\
    d2 = pre ++ ("payload", PDict p2) :: post /\
    NoDup (map fst p1) /\ Permutation p1 p2.

(** Two texts with one SHA-256 digest. *)
Definition sha256_collision (t t' : string) : Prop :=
  t <> t' /\ sha256_hex t = sha256_hex t'.

(** * A ledger to run the properties on *)

(** A clock that ticks once a second. *)
Definition demo_clock (n : nat) : string :=
  "2025-01-01T00:00:0" +:+ int_repr (Z.of_nat n) +:+ "+00:00".

(** An event with no timestamp of its own. *)
Definition demo_event : Event :=
  mkEvent "SOLICITATION_PUBLISHED" "CONTRACTING_OFFICER" "CO_001"
          [("solicitation_id", PStr "SOL-1")] "".

(** [Blockchain()], then one [add_block]. *)
Definition ledger1 : state := snd (__init__ (mkState [] demo_clock 0)).
Definition ledger2 : state := snd (add_block [demo_event] ledger1).

(** The two blocks of [ledger2], written out. *)
Definition demo_genesis : Block :=
  mkBlock 0 "2025-01-01T00:00:00+00:00" zeros64
    (genesis_events "2025-01-01T00:00:01+00:00") 0
    "2a853081d9877429ecef86e98a81725e301f559be077f59897c24c4c808edfd8".

Definition demo_block1 : Block :=
  mkBlock 1 "2025-01-01T00:00:03+00:00"
    "2a853081d9877429ecef86e98a81725e301f559be077f59897c24c4c808edfd8"
    [[("event_type", PStr "SOLICITATION_PUBLISHED");
      ("actor_role", PStr "CONTRACTING_OFFICER");
      ("actor_id", PStr "CO_001");
      ("payload", PDict [("solicitation_id", PStr "SOL-1")]);
      ("timestamp_utc", PStr "2025-01-01T00:00:02+00:00")]]
    0 "892d2500d944891ed102a25e64805bd836ce8bf117772b7ba85855d0d4fbc94c".

(** C6 as stated fails: the nonce is part of what is hashed.  Two blocks
    with the same index, timestamp, previous hash and events, and another
    nonce, have different digests. *)
Definition demo_block1_nonce : Block :=
  mkBlock (index demo_block1) (timestamp_utc demo_block1)
          (previous_hash demo_block1) (events demo_block1) 1
          (hash demo_block1).

(** The genesis block of [ledger2] with another message in its event, and
    its second block with another solicitation; the stored [hash] of each
    is kept. *)
Definition forged_genesis : Block :=
  mkBlock 0 "2025-01-01T00:00:00+00:00" zeros64
    [[("event_type", PStr "GENESIS");
      ("actor_role", PStr "SYSTEM");
      ("actor_id", PStr "GOVPROCURECHAIN");
      ("payload", PDict [("message", PStr "Forged")]);
      ("timestamp_utc", PStr "2025-01-01T00:00:01+00:00")]]
    0 (hash demo_genesis).

Definition forged_block1 : Block :=
  mkBlock 1 "2025-01-01T00:00:03+00:00" (previous_hash demo_block1)
    [[("event_type", PStr "SOLICITATION_PUBLISHED");
      ("actor_role", PStr "CONTRACTING_OFFICER");
      ("actor_id", PStr "CO_001");
      ("payload", PDict [("solicitation_id", PStr "SOL-2")]);
      ("timestamp_utc", PStr "2025-01-01T00:00:02+00:00")]]
    0 (hash demo_block1).

(** The second block of [ledger2] with an event that holds an object
    without a JSON encoding. *)
Definition unencodable_block1 : Block :=
  mkBlock 1 "2025-01-01T00:00:03+00:00" (previous_hash demo_block1)
    [[("event_type", PStr "SOLICITATION_PUBLISHED");
      ("payload", PDict [("attachment", PObject 0)])]]
    0 (hash demo_block1).

(** One payload, its items inserted in two orders, and a block holding
    an event with a given payload. *)
Definition payload_ab : pydict := [("a", PInt 1); ("b", PStr "x")].
Definition payload_ba : pydict := [("b", PStr "x"); ("a", PInt 1)].

Definition block_with_payload (p : pydict) : Block :=
  mkBlock 1 "2025-01-01T00:00:03+00:00" (hash demo_genesis)
    [[("event_type", PStr "BID_SUBMITTED");
      ("actor_role", PStr "VENDOR");
      ("actor_id", PStr "VENDOR_ACME");
      ("payload", PDict p);
      ("timestamp_utc", PStr "2025-01-01T00:00:02+00:00")]]
    0 "".

(** An event whose payload holds an object with no JSON encoding. *)
Definition bad_event : Event :=
  mkEvent "BID_SUBMITTED" "VENDOR" "VENDOR_ACME"
          [("bid_id", PStr "BID-1"); ("attachment", PObject 0)] "".

(** An event whose payload holds an instance of a dataclass, a vendor
    record with two fields. *)
Definition dataclass_event : Event :=
  mkEvent "VENDOR_REGISTERED" "CONTRACTING_OFFICER" "CO_001"
          [("vendor", PData [("vendor_id", PStr "VENDOR_ACME");
                             ("sam_registered", PBool true)])]
          "2025-01-01T00:00:05+00:00".

(** * More ways to overwrite the stored chain *)

(** [block.hash = h] on a stored block. *)
Definition set_hash (h : string) (b : Block) : Block :=
  mkBlock (index b) (timestamp_utc b) (previous_hash b) (events b)
          (nonce b) h.

(** [del self.chain[n:]]: the blocks from position [n] on are dropped. *)
Definition truncate (n : nat) (s : state) : state :=
  mkState (take n (chain s)) (clock s) (ticks s).

(** The digits of [hexdigest]. *)
Definition is_hex_lower (c : ascii) : bool :=
  is_digit c || ((97 <=? N_of_ascii c)%N && (N_of_ascii c <=? 102)%N).

(** The dict [to_dict] returns for an event, given its timestamp. *)
Definition dict_of (e : Event) (ts : string) : pydict :=
  [("event_type", PStr (event_type e));
   ("actor_role", PStr (actor_role e));
   ("actor_id", PStr (actor_id e));
   ("payload", PDict (payload e));
   ("timestamp_utc", PStr ts)].

(** The events of a batch that carry no timestamp of their own. *)
Definition unstamped (evs : list Event) : list Event :=
  List.filter (fun e => String.eqb (ev_timestamp_utc e) "") evs.

(** A block sealed by hand on top of the genesis block of [ledger2]: not
    the block [add_block] made, with index 7 and no event. *)
Definition resealed_block : Block :=
  mkBlock 7 "1999-12-31T23:59:59+00:00" (hash demo_genesis) [] 0
    "06251c309531bc5e1b43d264684b63e444dbb7ef122f37f73dcd593344b75e1f".

(** The timestamp of the [i]-th event of a batch handed to [add_block]
    when the clock has been read [n] times: its own, or the reading taken
    at its turn. *)
Definition stamp_of (clock : nat -> string) (n : nat) (evs : list Event)
    (i : nat) (e : Event) : string :=
  if String.eqb (ev_timestamp_utc e) ""
  then clock (n + length (unstamped (take i evs)))%nat
  else ev_timestamp_utc e.

(** An event that comes with its timestamp, and a batch of two events. *)
Definition stamped_event : Event :=
  mkEvent "BIDDING_CLOSED" "CONTRACTING_OFFICER" "CO_001"
          [("solicitation_id", PStr "SOL-1")] "2024-06-30T12:00:00+00:00".

Definition demo_batch : list Event := [stamped_event; demo_event].

(** * The procurement records of [models.py] used by the rules *)

Record Solicitation : Type := mkSolicitation {
  solicitation_id : string;
  agency_name : string;
  title : string;
  naics : string;
  closing_date : string;
  requirements : list string;
  status : string
}.

Record Vendor : Type := mkVendor {
  vendor_id : string;
  legal_name : string;
  sam_registered : bool;
  naics_codes : list string;
  insurance_valid : bool;
  past_performance_score : Z
}.

(** The fields [solicitation_id] and [vendor_id] of a bid are
    [bid_solicitation_id] and [bid_vendor_id] here.  A price is a Python
    [float], a binary64 number. *)
Record Bid : Type := mkBid {
  bid_id : string;
  bid_solicitation_id : string;
  bid_vendor_id : string;
  price_total : float;
  delivery_days : Z;
  technical_compliance : bool;
  notes : string
}.

(** * The rules of [ai_rules.py] *)

Record RiskResult : Type := mkRiskResult {
  compliance_pass : bool;
  risk_score : Z;
  reasons : list string
}.

(** The local variables of [evaluate_bid_rules]. *)
Record tally : Type := mkTally {
  t_reasons : list string;
  t_risk : Z;
  t_pass : bool
}.

(** A rule that fires: [reasons.append(reason)], [risk += points], and
    [compliance_pass = False] when the rule is a hard gate. *)
Definition hit (gate : bool) (reason : string) (points : Z) (t : tally)
  : tally :=
  mkTally (t_reasons t ++ [reason]) (t_risk t + points)
          (if gate then false else t_pass t).

(** [x in l] on strings. *)
Definition str_in (x : string) (l : list string) : bool :=
  existsb (String.eqb x) l.

(** [evaluate_bid_rules].  [median] is [statistics.median], called on a
    list that is not empty. *)
Definition evaluate_bid_rules (median : list float -> float)
    (solicitation : Solicitation) (bid : Bid) (vendor : Vendor)
    (peer_prices : list float) : RiskResult :=
  let t := mkTally [] 0 true in
  let t :=
    if negb (String.eqb (bid_solicitation_id bid) (solicitation_id solicitation))
    then hit true "Bid does not match solicitation_id." 60 t else t in
  let t :=
    if negb (sam_registered vendor)
    then hit true "Vendor is NOT SAM-registered." 50 t else t in
  let t :=
    if negb (insurance_valid vendor)
    then hit true "Vendor insurance is NOT valid." 40 t else t in
  let t :=
    if negb (str_in (naics solicitation) (naics_codes vendor))
    then hit false "Vendor NAICS codes do not include solicitation NAICS." 20 t
    else t in
  let t :=
    if negb (technical_compliance bid)
    then hit true "Bid marked technically non-compliant (fails requirements)."
             50 t
    else t in
  let t :=
    if past_performance_score vendor <? 60
    then hit false "Low past performance score (<60)." 25 t
    else if past_performance_score vendor <? 75
    then hit false "Moderate past performance score (60-74)." 10 t
    else t in
  let t :=
    if delivery_days bid <=? 3
    then hit false "Very aggressive delivery timeline (<=3 days)." 15 t
    else if 60 <? delivery_days bid
    then hit false "Very long delivery timeline (>60 days)." 10 t
    else t in
  let t :=
    match peer_prices with
    | [] => t
    | _ :: _ =>
        let m := median peer_prices in
        if PrimFloat.ltb (price_total bid)
                         (PrimFloat.mul 0x1.6666666666666p-1%float m)
        then hit false
               "Price is unusually low (<70% of median) — potential underbid risk."
               20 t
        else if PrimFloat.ltb (PrimFloat.mul 1.5%float m) (price_total bid)
        then hit false "Price is unusually high (>150% of median)." 10 t
        else t
    end in
  mkRiskResult (t_pass t) (Z.max 0 (Z.min 100 (t_risk t))) (t_reasons t).

(** The errors [choose_winner] raises, and what a call comes to. *)
Inductive rules_exn : Type :=
| KeyError (key : string)
| ValueError (message : string).

Inductive outcome (A : Type) : Type :=
| Returned (a : A)
| Raised (e : rules_exn).
Arguments Returned {A} a.
Arguments Raised {A} e.

(** The loop of [choose_winner]: each bid with its evaluation;
    [vendors_by_id[b.vendor_id]] raises [KeyError] on an unknown vendor. *)
Fixpoint score_bids (median : list float -> float)
    (solicitation : Solicitation) (vendors_by_id : gmap string Vendor)
    (peer_prices : list float) (bids : list Bid)
  : outcome (list (Bid * RiskResult)) :=
  match bids with
  | [] => Returned []
  | b :: rest =>
      match vendors_by_id !! bid_vendor_id b with
      | None => Raised (KeyError (bid_vendor_id b))
      | Some v =>
          let res := evaluate_bid_rules median solicitation b v peer_prices in
          match score_bids median solicitation vendors_by_id peer_prices rest with
          | Raised e => Raised e
          | Returned scored => Returned ((b, res) :: scored)
          end
      end
  end.

(** [list.sort(key=lambda x: x[0].price_total)]: a stable sort that
    compares the keys with [<].  On prices that are numbers (no NaN) every
    stable sort gives this list. *)
Fixpoint insert_by_price (x : Bid * RiskResult) (l : list (Bid * RiskResult))
  : list (Bid * RiskResult) :=
  match l with
  | [] => [x]
  | y :: l' =>
      if PrimFloat.ltb (price_total (fst y)) (price_total (fst x))
      then y :: insert_by_price x l'
      else x :: l
  end.

Definition sort_by_price (l : list (Bid * RiskResult))
  : list (Bid * RiskResult) :=
  fold_right insert_by_price [] l.

(** [choose_winner] *)
Definition choose_winner (median : list float -> float)
    (solicitation : Solicitation) (bids : list Bid)
    (vendors_by_id : gmap string Vendor) : outcome (Bid * RiskResult) :=
  let peer_prices := map price_total bids in
  match score_bids median solicitation vendors_by_id peer_prices bids with
  | Raised e => Raised e
  | Returned scored =>
      let compliant :=
        List.filter (fun br => compliance_pass (snd br)) scored in
      match compliant with
      | [] =>
          Raised (ValueError
            "No compliant bids available. Manual contracting officer review required.")
      | first :: _ => Returned (hd first (sort_by_price compliant))
      end
  end.

(** The points that come with each reason, as the rules add them. *)
Definition points_of (reason : string) : Z :=
  if String.eqb reason "Bid does not match solicitation_id." then 60
  else if String.eqb reason "Vendor is NOT SAM-registered." then 50
  else if String.eqb reason "Vendor insurance is NOT valid." then 40
  else if String.eqb reason
            "Vendor NAICS codes do not include solicitation NAICS." then 20
  else if String.eqb reason
            "Bid marked technically non-compliant (fails requirements)." then 50
  else if String.eqb reason "Low past performance score (<60)." then 25
  else if String.eqb reason "Moderate past performance score (60-74)." then 10
  else if String.eqb reason
            "Very aggressive delivery timeline (<=3 days)." then 15
  else if String.eqb reason "Very long delivery timeline (>60 days)." then 10
  else if String.eqb reason
            "Price is unusually low (<70% of median) — potential underbid risk."
       then 20
  else if String.eqb reason "Price is unusually high (>150% of median)." then 10
  else 0.

Definition total_points (rs : list string) : Z :=
  fold_right Z.add 0 (map points_of rs).

(** The four hard gates. *)
Definition gates_pass (solicitation : Solicitation) (bid : Bid)
    (vendor : Vendor) : bool :=
  String.eqb (bid_solicitation_id bid) (solicitation_id solicitation) &&
  sam_registered vendor && insurance_valid vendor &&
  technical_compliance bid.

(** The rules as a table: hard gate or not, reason, points. *)
Definition rule_table : list (bool * string * Z) :=
  [(true, "Bid does not match solicitation_id.", 60);
   (true, "Vendor is NOT SAM-registered.", 50);
   (true, "Vendor insurance is NOT valid.", 40);
   (false, "Vendor NAICS codes do not include solicitation NAICS.", 20);
   (true, "Bid marked technically non-compliant (fails requirements).", 50);
   (false, "Low past performance score (<60).", 25);
   (false, "Moderate past performance score (60-74).", 10);
   (false, "Very aggressive delivery timeline (<=3 days).", 15);
   (false, "Very long delivery timeline (>60 days).", 10);
   (false,
    "Price is unusually low (<70% of median) — potential underbid risk.", 20);
   (false, "Price is unusually high (>150% of median).", 10)].

(** The reasons of the hard gates. *)
Definition is_gate_reason (reason : string) : bool :=
  existsb (fun rule => fst (fst rule) && String.eqb reason (snd (fst rule)))
          rule_table.

(** The rules with the condition each one fires on, in the order
    [evaluate_bid_rules] goes through them; an [elif] fires when the [if]
    before it did not. *)
Definition fire (rule : bool * bool * string * Z) (t : tally) : tally :=
  if fst (fst (fst rule))
  then hit (snd (fst (fst rule))) (snd (fst rule)) (snd rule) t
  else t.

Definition fired_rules (median : list float -> float)
    (solicitation : Solicitation) (bid : Bid) (vendor : Vendor)
    (peer_prices : list float) : list (bool * bool * string * Z) :=
  let low_perf := past_performance_score vendor <? 60 in
  let fast := delivery_days bid <=? 3 in
  let priced := match peer_prices with [] => false | _ :: _ => true end in
  let m := median peer_prices in
  let low_price :=
    PrimFloat.ltb (price_total bid)
                  (PrimFloat.mul 0x1.6666666666666p-1%float m) in
  [(negb (String.eqb (bid_solicitation_id bid) (solicitation_id solicitation)),
    true, "Bid does not match solicitation_id.", 60);
   (negb (sam_registered vendor), true, "Vendor is NOT SAM-registered.", 50);
   (negb (insurance_valid vendor), true, "Vendor insurance is NOT valid.", 40);
   (negb (str_in (naics solicitation) (naics_codes vendor)), false,
    "Vendor NAICS codes do not include solicitation NAICS.", 20);
   (negb (technical_compliance bid), true,
    "Bid marked technically non-compliant (fails requirements).", 50);
   (low_perf, false, "Low past performance score (<60).", 25);
   (negb low_perf && (past_performance_score vendor <? 75), false,
    "Moderate past performance score (60-74).", 10);
   (fast, false, "Very aggressive delivery timeline (<=3 days).", 15);
   (negb fast && (60 <? delivery_days bid), false,
    "Very long delivery timeline (>60 days).", 10);
   (priced && low_price, false,
    "Price is unusually low (<70% of median) — potential underbid risk.", 20);
   (priced && negb low_price &&
    PrimFloat.ltb (PrimFloat.mul 1.5%float m) (price_total bid), false,
    "Price is unusually high (>150% of median).", 10)].

(** [statistics.median] on a list that is not empty and holds no NaN: the
    middle of the sorted data, or the mean of the two middle values.
    [sorted] is stable: of two values that compare equal ([0.0] and
    [-0.0]) the one that came first stays first. *)
Fixpoint insert_float (x : float) (l : list float) : list float :=
  match l with
  | [] => [x]
  | y :: l' =>
      if PrimFloat.ltb y x then y :: insert_float x l' else x :: l
  end.

Definition statistics_median (data : list float) : float :=
  let data := fold_right insert_float [] data in
  let n := length data in
  if Nat.eqb (n mod 2) 1
  then nth (n / 2) data 0%float
  else PrimFloat.div
         (PrimFloat.add (nth (n / 2 - 1) data 0%float)
                        (nth (n / 2) data 0%float))
         2%float.

(** The sample data of [app.py]. *)
Definition demo_solicitation : Solicitation :=
  mkSolicitation "SOL-2025-001" "City of Houston Procurement"
    "IT Helpdesk Support Services" "541519" "2025-11-12 17:00 CST"
    ["Provide Tier 1-2 helpdesk support";
     "Document tickets and resolution steps";
     "Meet SLA: 90% tickets resolved within 48 hours"]
    "POSTED".

Definition vendor_acme : Vendor :=
  mkVendor "VENDOR_ACME" "ACME Technology Solutions LLC" true
           ["541519"; "541511"] true 82.

Definition vendor_budget : Vendor :=
  mkVendor "VENDOR_BUDGET" "Budget IT Pros Inc" false ["541519"] true 70.

Definition vendor_fast : Vendor :=
  mkVendor "VENDOR_FAST" "FastTrack Systems Group" true ["541511"] true 55.

Definition demo_vendors : gmap string Vendor :=
  <["VENDOR_FAST" := vendor_fast]>
    (<["VENDOR_BUDGET" := vendor_budget]>
       (<["VENDOR_ACME" := vendor_acme]> ∅)).

Definition bid_001 : Bid :=
  mkBid "BID-001" "SOL-2025-001" "VENDOR_ACME" 120000%float 14 true
        "Meets SLA with staffed on-call rotation.".

Definition bid_002 : Bid :=
  mkBid "BID-002" "SOL-2025-001" "VENDOR_BUDGET" 80000%float 10 true
        "Lowest price but SAM registration missing.".

Definition bid_003 : Bid :=
  mkBid "BID-003" "SOL-2025-001" "VENDOR_FAST" 70000%float 3 true
        "Aggressive delivery timeline; NAICS mismatch.".

Definition demo_bids : list Bid := [bid_001; bid_002; bid_003].

(** An entry of [scored]: a bid with the evaluation of its vendor. *)
Definition scored_as (median : list float -> float) (sol : Solicitation)
    (vendors : gmap string Vendor) (prices : list float)
    (b : Bid) (br : Bid * RiskResult) : Prop :=
  fst br = b /\
  exists v, vendors !! bid_vendor_id b = Some v /\
            snd br = evaluate_bid_rules median sol b v prices.

(** The reasons of the rules, in the order of the rules. *)
Definition rule_reasons : list string :=
  map (fun rule => snd (fst rule)) rule_table.

(** The lookup table of the sample without the vendor of the second bid. *)
Definition vendors_without_budget : gmap string Vendor :=
  delete "VENDOR_BUDGET" demo_vendors.

(** * Test vectors of SHA-256 *)

Example sha256_empty :
  sha256_hex "" =
  "e3b0c44298fc1c149afbf4c8996fb92427ae41e4649b934ca495991b7852b855".
Proof. vm_compute. reflexivity. Qed.

Example sha256_abc :
  sha256_hex "abc" =
  "ba7816bf8f01cfea414140de5dae2223b00361a396177a9cb410ff61f20015ad".
Proof. vm_compute. reflexivity. Qed.

Example sha256_two_blocks :
  sha256_hex "abcdbcdecdefdefgefghfghighijhijkijkljklmklmnlmnomnopnopq" =
  "248d6a61d20638b8e5c026930c3e6039a33ce45964ff2167f6ecedd419db06c1".
Proof. vm_compute. reflexivity. Qed.

(** * Induction on values *)

Lemma pyval_ind (P : pyval -> Prop) :
  P PNone ->
  (forall b, P (PBool b)) ->
  (forall n, P (PInt n)) ->
  (forall s, P (PStr s)) ->
  (forall l, Forall P l -> P (PList l)) ->
  (forall d, Forall (fun kv => P (snd kv)) d -> P (PDict d)) ->
  (forall id, P (PObject id)) ->
  (forall f, Forall (fun kv => P (snd kv)) f -> P (PData f)) ->
  (forall id, P (PUncopyable id)) ->
  forall v, P v.
Proof.
  intros HN HB HI HS HL HD HO HF HU.
  fix IH 1. intros [ | b | n | s | l | d | id | f | id ].
  - exact HN.
  - apply HB.
  - apply HI.
  - apply HS.
  - apply HL. induction l as [ | x l IHl ]; constructor; [ apply IH | exact IHl ].
  - apply HD. induction d as [ | [k x] d IHd ]; constructor;
      [ apply IH | exact IHd ].
  - apply HO.
  - apply HF. induction f as [ | [k x] f IHf ]; constructor;
      [ apply IH | exact IHf ].
  - apply HU.
Qed.

(** * Strings *)

Lemma sapp_cons (c : ascii) (s1 s2 : string) :
  String c s1 +:+ s2 = String c (s1 +:+ s2).
Proof. reflexivity. Qed.

Lemma sapp_nil_l (s : string) : "" +:+ s = s.
Proof. reflexivity. Qed.

Lemma sapp_nil_r (s : string) : s +:+ "" = s.
Proof. induction s as [ | c s IH ]; [ reflexivity | ]. rewrite sapp_cons, IH. reflexivity. Qed.

Lemma sapp_assoc (s1 s2 s3 : string) :
  (s1 +:+ s2) +:+ s3 = s1 +:+ (s2 +:+ s3).
Proof.
  induction s1 as [ | c s1 IH ]; [ reflexivity | ].
  rewrite !sapp_cons, IH. reflexivity.
Qed.

Lemma sapp_inv_head (s r1 r2 : string) : s +:+ r1 = s +:+ r2 -> r1 = r2.
Proof.
  induction s as [ | c s IH ]; [ exact (fun H => H) | ].
  rewrite !sapp_cons. intros H. injection H as H. exact (IH H).
Qed.

Lemma string_cons_inv (c : ascii) (s1 s2 : string) :
  String c s1 = String c s2 -> s1 = s2.
Proof. intros [= H]. exact H. Qed.

Lemma length_sapp (s1 s2 : string) :
  String.length (s1 +:+ s2) = (String.length s1 + String.length s2)%nat.
Proof.
  induction s1 as [ | c s1 IH ]; [ reflexivity | ].
  rewrite sapp_cons. simpl. rewrite IH. reflexivity.
Qed.

(** Two texts that agree after appending: one is a prefix of the other. *)
Lemma sapp_eq_prefix (a b x y : string) :
  a +:+ x = b +:+ y ->
  String.prefix a b = true \/ String.prefix b a = true.
Proof.
  revert b. induction a as [ | c a IH ]; intros b H.
  - left. destruct b; reflexivity.
  - destruct b as [ | c' b ]; [ right; reflexivity | ].
    rewrite !sapp_cons in H. injection H as Hc H. subst c'.
    destruct (IH b H) as [Hp | Hp]; [ left | right ]; simpl;
      destruct (ascii_dec c c); try congruence.
Qed.

(** * Every character *)

Lemma all_ascii_complete (c : ascii) : In c all_ascii.
Proof.
  unfold all_ascii. rewrite <- (ascii_nat_embedding c).
  apply in_map, in_seq. pose proof (nat_ascii_bounded c). lia.
Qed.

Lemma forall_ascii (P : ascii -> bool) :
  forallb P all_ascii = true -> forall c, P c = true.
Proof.
  intros H c. rewrite forallb_forall in H. apply H, all_ascii_complete.
Qed.

Lemma forall_ascii2 (P : ascii -> ascii -> bool) :
  forallb (fun c1 => forallb (P c1) all_ascii) all_ascii = true ->
  forall c1 c2, P c1 c2 = true.
Proof.
  intros H c1 c2.
  apply (forall_ascii (P c1)), (forall_ascii (fun c => forallb (P c) all_ascii) H).
Qed.

(** * The escapes of a JSON string *)

Lemma escape_char_head (c : ascii) :
  match escape_char c with
  | EmptyString => False
  | String h _ => h <> quote
  end.
Proof.
  pose proof (forall_ascii
                (fun c => match escape_char c with
                          | EmptyString => false
                          | String h _ => negb (Ascii.eqb h quote)
                          end)
                ltac:(vm_compute; reflexivity) c) as H.
  simpl in H. destruct (escape_char c) as [ | h t ]; [ discriminate | ].
  intros ->. discriminate.
Qed.

(** No escape is the start of another one. *)
Lemma escape_char_prefix_free (c1 c2 : ascii) :
  String.prefix (escape_char c1) (escape_char c2) = true -> c1 = c2.
Proof.
  pose proof (forall_ascii2
                (fun c1 c2 =>
                   implb (String.prefix (escape_char c1) (escape_char c2))
                         (Ascii.eqb c1 c2))
                ltac:(vm_compute; reflexivity) c1 c2) as H.
  simpl in H. intros Hp. rewrite Hp in H. apply Ascii.eqb_eq, H.
Qed.

Lemma escape_inj_cont (s1 s2 r1 r2 : string) :
  escape s1 +:+ String quote r1 = escape s2 +:+ String quote r2 ->
  s1 = s2 /\ r1 = r2.
Proof.
  revert s2. induction s1 as [ | c1 s1 IH ]; intros [ | c2 s2 ] H; simpl in H.
  - rewrite !sapp_nil_l in H. injection H as H. auto.
  - exfalso. rewrite sapp_nil_l, sapp_assoc in H.
    pose proof (escape_char_head c2) as Hh.
    destruct (escape_char c2) as [ | h t ]; [ exact Hh | ].
    rewrite sapp_cons in H. injection H as Hq _. auto.
  - exfalso. rewrite sapp_nil_l, sapp_assoc in H.
    pose proof (escape_char_head c1) as Hh.
    destruct (escape_char c1) as [ | h t ]; [ exact Hh | ].
    rewrite sapp_cons in H. injection H as Hq _. auto.
  - rewrite !sapp_assoc in H.
    assert (c1 = c2) as ->.
    { destruct (sapp_eq_prefix _ _ _ _ H) as [Hp | Hp];
        [ | symmetry ]; apply escape_char_prefix_free, Hp. }
    apply sapp_inv_head in H. destruct (IH _ H) as [-> ->]. auto.
Qed.

Lemma encode_basestring_inj_cont (s1 s2 r1 r2 : string) :
  encode_basestring s1 +:+ r1 = encode_basestring s2 +:+ r2 ->
  s1 = s2 /\ r1 = r2.
Proof.
  unfold encode_basestring. rewrite !sapp_cons, !sapp_assoc, !sapp_cons, !sapp_nil_l.
  intros H. injection H as H. apply escape_inj_cont, H.
Qed.

(** * The text of an integer *)

Lemma all_digits_uint (d : uint) :
  all_digits (NilEmpty.string_of_uint d) = true.
Proof. induction d; simpl; auto. Qed.

Lemma uint_text_nonempty (d : uint) :
  d <> Nil -> NilEmpty.string_of_uint d <> "".
Proof. destruct d; simpl; congruence. Qed.

(** An optional minus sign, then at least one digit. *)
Lemma int_repr_shape (n : Z) :
  exists ds : string,
    ds <> "" /\ all_digits ds = true /\
    (int_repr n = ds \/ int_repr n = String "-" ds).
Proof.
  unfold int_repr. destruct n as [ | p | p ]; simpl.
  - exists "0". split; [ discriminate | split; [ reflexivity | left; reflexivity ] ].
  - pose proof (Unsigned.to_uint_nonnil p) as Hn.
    exists (NilEmpty.string_of_uint (Pos.to_uint p)).
    split; [ apply uint_text_nonempty, Hn | ].
    split; [ apply all_digits_uint | left ].
    unfold NilZero.string_of_uint. destruct (Pos.to_uint p); congruence.
  - pose proof (Unsigned.to_uint_nonnil p) as Hn.
    exists (NilEmpty.string_of_uint (Pos.to_uint p)).
    split; [ apply uint_text_nonempty, Hn | ].
    split; [ apply all_digits_uint | right ].
    unfold NilZero.string_of_uint. destruct (Pos.to_uint p); congruence.
Qed.

Lemma int_repr_inj (n1 n2 : Z) : int_repr n1 = int_repr n2 -> n1 = n2.
Proof.
  unfold int_repr. intros H. apply DecimalZ.to_int_inj.
  assert (Hn : forall n, Z.to_int n <> Pos Nil /\ Z.to_int n <> Neg Nil).
  { intros [ | p | p ]; simpl; split; try discriminate;
      intros [= Hp]; exact (Unsigned.to_uint_nonnil p Hp). }
  pose proof (NilZero.isi (Z.to_int n1) (proj1 (Hn n1)) (proj2 (Hn n1))) as H1.
  pose proof (NilZero.isi (Z.to_int n2) (proj1 (Hn n2)) (proj2 (Hn n2))) as H2.
  rewrite H in H1. rewrite H1 in H2. injection H2 as H2. exact H2.
Qed.

(** A run of digits ends where the first other character stands. *)
Lemma digits_span (s1 s2 r1 r2 : string) :
  all_digits s1 = true -> all_digits s2 = true ->
  delim r1 -> delim r2 ->
  s1 +:+ r1 = s2 +:+ r2 -> s1 = s2 /\ r1 = r2.
Proof.
  revert s2. induction s1 as [ | c1 s1 IH ]; intros [ | c2 s2 ] D1 D2 E1 E2 H.
  - rewrite !sapp_nil_l in H. auto.
  - exfalso. rewrite sapp_nil_l, sapp_cons in H. subst r1.
    simpl in D2, E1. rewrite E1 in D2. discriminate.
  - exfalso. rewrite sapp_nil_l, sapp_cons in H. subst r2.
    simpl in D1, E2. rewrite E2 in D1. discriminate.
  - rewrite !sapp_cons in H. injection H as -> H.
    simpl in D1, D2. apply andb_true_iff in D1 as [_ D1].
    apply andb_true_iff in D2 as [_ D2].
    destruct (IH s2 D1 D2 E1 E2 H) as [-> ->]. auto.
Qed.

Lemma int_repr_inj_cont (n1 n2 : Z) (r1 r2 : string) :
  delim r1 -> delim r2 ->
  int_repr n1 +:+ r1 = int_repr n2 +:+ r2 -> n1 = n2 /\ r1 = r2.
Proof.
  intros E1 E2 H.
  destruct (int_repr_shape n1) as (d1 & N1 & D1 & S1).
  destruct (int_repr_shape n2) as (d2 & N2 & D2 & S2).
  assert (Hminus : forall d r d' r',
             d <> "" -> all_digits d = true ->
             d +:+ r = String "-" d' +:+ r' -> False).
  { intros [ | c d ] r d' r' Hd Hall Heq; [ congruence | ].
    rewrite !sapp_cons in Heq. injection Heq as -> _. discriminate. }
  destruct S1 as [S1 | S1], S2 as [S2 | S2]; rewrite S1, S2 in H.
  - destruct (digits_span _ _ _ _ D1 D2 E1 E2 H) as [Hd ->].
    split; [ apply int_repr_inj; congruence | reflexivity ].
  - exfalso. exact (Hminus _ _ _ _ N1 D1 H).
  - exfalso. symmetry in H. exact (Hminus _ _ _ _ N2 D2 H).
  - rewrite !sapp_cons in H. injection H as H.
    destruct (digits_span _ _ _ _ D1 D2 E1 E2 H) as [Hd ->].
    split; [ apply int_repr_inj; congruence | reflexivity ].
Qed.

(** * The encoder reads back: one text, one value *)

Lemma render_head (sk : bool) (v : pyval) :
  serializable v = true ->
  exists (c : ascii) (s : string),
    render sk v = String c s /\ kind_of_char c = kind v.
Proof.
  destruct v as [ | [ | ] | n | s | l | d | id | f | id ]; intros Hs;
    try discriminate Hs;
    try (eexists _, _; split; reflexivity).
  destruct (int_repr_shape n) as ([ | c ds ] & Hne & Hd & [Hr | Hr]);
    try congruence; simpl; rewrite Hr.
  - exists c, ds. split; [ reflexivity | ].
    simpl in Hd. apply andb_true_iff in Hd as [Hc _].
    unfold kind_of_char. rewrite Hc. reflexivity.
  - eexists _, _. split; reflexivity.
Qed.

Lemma kind_of_render (v1 v2 : pyval) (r1 r2 : string) :
  serializable v1 = true -> serializable v2 = true ->
  render false v1 +:+ r1 = render false v2 +:+ r2 -> kind v1 = kind v2.
Proof.
  intros S1 S2 H.
  destruct (render_head false v1 S1) as (c1 & t1 & E1 & K1).
  destruct (render_head false v2 S2) as (c2 & t2 & E2 & K2).
  rewrite E1, E2, !sapp_cons in H. injection H as -> _. congruence.
Qed.

Lemma join_tail (close : ascii) (x : string) (l : list string) (r : string) :
  join "," (x :: l) +:+ String close r = x +:+ items_tail close l r.
Proof.
  revert x. induction l as [ | y l IH ]; intros x; [ reflexivity | ].
  change (join "," (x :: y :: l)) with (x +:+ "," +:+ join "," (y :: l)).
  rewrite !sapp_assoc, IH. reflexivity.
Qed.

Lemma bracket_app (open close : ascii) (chunks : list string) (r : string) :
  (String open "" +:+ join "," chunks +:+ String close "") +:+ r =
  String open match chunks with
              | [] => String close r
              | x :: rest => x +:+ items_tail close rest r
              end.
Proof.
  rewrite sapp_cons, sapp_nil_l, sapp_cons, sapp_assoc, sapp_cons, sapp_nil_l.
  destruct chunks as [ | x rest ]; [ reflexivity | ].
  rewrite join_tail. reflexivity.
Qed.

Lemma delim_items_tail (close : ascii) (l : list string) (r : string) :
  is_digit close = false -> delim (items_tail close l r).
Proof. intros H. destruct l; [ exact H | reflexivity ]. Qed.

Lemma not_close (close : ascii) (v : pyval) (r1 r2 : string) :
  serializable v = true -> kind_of_char close = 7%nat ->
  String close r1 = render false v +:+ r2 -> False.
Proof.
  intros S K H. destruct (render_head false v S) as (c & t & E & Kc).
  rewrite E, sapp_cons in H. injection H as -> _.
  rewrite K in Kc. destruct v; discriminate.
Qed.

Lemma list_tail_inj (l1 : list pyval) :
  Forall unambiguous l1 -> forallb serializable l1 = true ->
  forall (l2 : list pyval) (r1 r2 : string),
    forallb serializable l2 = true -> delim r1 -> delim r2 ->
    items_tail "]" (map (render false) l1) r1 =
    items_tail "]" (map (render false) l2) r2 ->
    l1 = l2 /\ r1 = r2.
Proof.
  induction 1 as [ | v1 l1 Hv _ IH ]; intros S1 [ | v2 l2 ] r1 r2 S2 E1 E2 H;
    simpl in H; try discriminate H.
  - injection H as ->. auto.
  - simpl in S1, S2. apply andb_true_iff in S1 as [Sv1 S1].
    apply andb_true_iff in S2 as [Sv2 S2].
    rewrite !sapp_cons, !sapp_nil_l in H. injection H as H.
    destruct (Hv Sv1 v2 _ _ Sv2
                (delim_items_tail "]" _ r1 eq_refl)
                (delim_items_tail "]" _ r2 eq_refl) H) as [-> H'].
    destruct (IH S1 l2 r1 r2 S2 E1 E2 H') as [-> ->]. auto.
Qed.

Lemma dict_item_inj_cont (k1 k2 : string) (v1 v2 : pyval) (r1 r2 : string) :
  unambiguous v1 -> serializable v1 = true -> serializable v2 = true ->
  delim r1 -> delim r2 ->
  dict_item (k1, render false v1) +:+ r1 =
  dict_item (k2, render false v2) +:+ r2 ->
  k1 = k2 /\ v1 = v2 /\ r1 = r2.
Proof.
  intros Hv S1 S2 E1 E2 H. unfold dict_item in H. simpl in H.
  rewrite !sapp_assoc in H.
  destruct (encode_basestring_inj_cont _ _ _ _ H) as [-> H'].
  rewrite !sapp_cons, !sapp_nil_l in H'. injection H' as H'.
  destruct (Hv S1 v2 r1 r2 S2 E1 E2 H') as [-> ->]. auto.
Qed.

Lemma item_texts_cons (k : string) (v : pyval) (d : pydict) :
  item_texts ((k, v) :: d) = dict_item (k, render false v) :: item_texts d.
Proof. reflexivity. Qed.

#[local] Arguments dict_item : simpl never.
#[local] Arguments encode_basestring : simpl never.
#[local] Arguments item_texts : simpl never.

Lemma dict_tail_inj (d1 : pydict) :
  Forall (fun kv => unambiguous (snd kv)) d1 ->
  forallb (fun kv => serializable (snd kv)) d1 = true ->
  forall (d2 : pydict) (r1 r2 : string),
    forallb (fun kv => serializable (snd kv)) d2 = true ->
    delim r1 -> delim r2 ->
    items_tail "}" (item_texts d1) r1 = items_tail "}" (item_texts d2) r2 ->
    d1 = d2 /\ r1 = r2.
Proof.
  induction 1 as [ | [k1 v1] d1 Hv _ IH ];
    intros S1 [ | [k2 v2] d2 ] r1 r2 S2 E1 E2 H;
    rewrite ?item_texts_cons in H; simpl in H; try discriminate H.
  - injection H as ->. auto.
  - simpl in S1, S2, Hv. apply andb_true_iff in S1 as [Sv1 S1].
    apply andb_true_iff in S2 as [Sv2 S2].
    rewrite !sapp_cons, !sapp_nil_l in H. apply string_cons_inv in H.
    destruct (dict_item_inj_cont k1 k2 v1 v2 _ _ Hv Sv1 Sv2
                (delim_items_tail "}" _ r1 eq_refl)
                (delim_items_tail "}" _ r2 eq_refl) H) as (-> & -> & H').
    destruct (IH S1 d2 r1 r2 S2 E1 E2 H') as [-> ->]. auto.
Qed.

Lemma render_unambiguous (v : pyval) : unambiguous v.
Proof.
  induction v as [ | b1 | n1 | s1 | l1 IH | d1 IH | id1 | f1 IH | id1 ]
    using pyval_ind;
    intros S1 v2 r1 r2 S2 E1 E2 H; try discriminate S1;
    pose proof (kind_of_render _ _ _ _ S1 S2 H) as K;
    destruct v2 as [ | b2 | n2 | s2 | l2 | d2 | id2 | f2 | id2 ];
    try discriminate K;
    clear K.
  - apply sapp_inv_head in H. auto.
  - destruct b1, b2; simpl in H; try discriminate H;
      apply sapp_inv_head in H; auto.
  - simpl in H. destruct (int_repr_inj_cont _ _ _ _ E1 E2 H) as [-> ->]. auto.
  - simpl in H. destruct (encode_basestring_inj_cont _ _ _ _ H) as [-> ->]. auto.
  - simpl in S1, S2. simpl render in H. rewrite !bracket_app in H.
    apply string_cons_inv in H.
    destruct l1 as [ | x1 l1 ], l2 as [ | x2 l2 ]; simpl in H.
    + injection H as ->. auto.
    + exfalso. simpl in S2. apply andb_true_iff in S2 as [Sx _].
      exact (not_close "]" x2 _ _ Sx eq_refl H).
    + exfalso. simpl in S1. apply andb_true_iff in S1 as [Sx _].
      symmetry in H. exact (not_close "]" x1 _ _ Sx eq_refl H).
    + simpl in S1, S2. apply andb_true_iff in S1 as [Sx1 S1].
      apply andb_true_iff in S2 as [Sx2 S2].
      inversion IH as [ | ? ? Hx IHl ]; subst.
      destruct (Hx Sx1 x2 _ _ Sx2
                  (delim_items_tail "]" _ r1 eq_refl)
                  (delim_items_tail "]" _ r2 eq_refl) H) as [-> H'].
      destruct (list_tail_inj l1 IHl S1 l2 r1 r2 S2 E1 E2 H') as [-> ->]. auto.
  - simpl in S1, S2. simpl render in H. rewrite !bracket_app in H.
    apply string_cons_inv in H.
    fold (item_texts d1) in H. fold (item_texts d2) in H.
    destruct d1 as [ | [k1 x1] d1 ], d2 as [ | [k2 x2] d2 ];
      rewrite ?item_texts_cons in H; simpl in H.
    + injection H as ->. auto.
    + exfalso. unfold dict_item, encode_basestring in H.
      rewrite !sapp_cons in H. discriminate H.
    + exfalso. unfold dict_item, encode_basestring in H.
      rewrite !sapp_cons in H. discriminate H.
    + simpl in S1, S2. apply andb_true_iff in S1 as [Sx1 S1].
      apply andb_true_iff in S2 as [Sx2 S2].
      inversion IH as [ | ? ? Hx IHd ]; subst. simpl in Hx.
      destruct (dict_item_inj_cont k1 k2 x1 x2 _ _ Hx Sx1 Sx2
                  (delim_items_tail "}" _ r1 eq_refl)
                  (delim_items_tail "}" _ r2 eq_refl) H) as (-> & -> & H').
      destruct (dict_tail_inj d1 IHd S1 d2 r1 r2 S2 E1 E2 H') as [-> ->]. auto.
Qed.

Lemma render_inj (v1 v2 : pyval) :
  serializable v1 = true -> serializable v2 = true ->
  render false v1 = render false v2 -> v1 = v2.
Proof.
  intros S1 S2 H.
  apply (render_unambiguous v1 S1 v2 "" "" S2 I I).
  rewrite !sapp_nil_r. exact H.
Qed.

(** * What [json.dumps] returns *)

Lemma mapM_spec {A B : Type} (f : A -> result B) (g : A -> B)
    (ok : A -> bool) (l : list A) :
  Forall (fun x => f x = if ok x then Ok (g x) else Raise TypeError) l ->
  mapM f l = if forallb ok l then Ok (map g l) else Raise TypeError.
Proof.
  induction 1 as [ | x l Hx _ IH ]; [ reflexivity | ].
  simpl. rewrite Hx. destruct (ok x); [ | reflexivity ].
  rewrite IH. destruct (forallb ok l); reflexivity.
Qed.

(** The encoder raises [TypeError] on a value it has no encoding for, and
    returns the text of any other value. *)
Lemma json_dumps_render (sk : bool) (v : pyval) :
  json_dumps sk v =
  if serializable v then Ok (render sk v) else Raise TypeError.
Proof.
  induction v as [ | [ | ] | n | s | l IH | d IH | id | f IH | id ]
    using pyval_ind;
    try reflexivity.
  - simpl. rewrite (mapM_spec _ (render sk) serializable l IH).
    destruct (forallb serializable l); reflexivity.
  - simpl.
    rewrite (mapM_spec _ (fun kv => (fst kv, render sk (snd kv)))
                       (fun kv => serializable (snd kv)) d).
    + destruct (forallb _ d); reflexivity.
    + eapply List.Forall_impl; [ | exact IH ]. intros [k x] Hx. simpl in *.
      rewrite Hx. destruct (serializable x); reflexivity.
Qed.

(** * Sorting the items of a dict *)

Lemma insert_item_perm {A : Type} (x : string * A) (l : list (string * A)) :
  Permutation (insert_item x l) (x :: l).
Proof.
  induction l as [ | y l IH ]; simpl; [ reflexivity | ].
  destruct (String.leb (fst x) (fst y)); [ reflexivity | ].
  rewrite IH. apply perm_swap.
Qed.

Lemma sorted_perm {A : Type} (l : list (string * A)) :
  Permutation (sorted l) l.
Proof.
  induction l as [ | x l IH ]; simpl; [ reflexivity | ].
  rewrite insert_item_perm, IH. reflexivity.
Qed.

Lemma insert_item_map {A B : Type} (f : A -> B) (x : string * A)
    (l : list (string * A)) :
  insert_item (fst x, f (snd x)) (map (fun kv => (fst kv, f (snd kv))) l) =
  map (fun kv => (fst kv, f (snd kv))) (insert_item x l).
Proof.
  induction l as [ | y l IH ]; simpl; [ reflexivity | ].
  destruct (String.leb (fst x) (fst y)); simpl; [ reflexivity | ].
  rewrite IH. reflexivity.
Qed.

(** Sorting looks at keys only. *)
Lemma sorted_map {A B : Type} (f : A -> B) (l : list (string * A)) :
  sorted (map (fun kv => (fst kv, f (snd kv))) l) =
  map (fun kv => (fst kv, f (snd kv))) (sorted l).
Proof.
  induction l as [ | x l IH ]; simpl; [ reflexivity | ].
  rewrite IH. apply insert_item_map.
Qed.

Lemma insert_item_sorted {A : Type} (x : string * A) (l : list (string * A)) :
  StronglySorted key_le l -> StronglySorted key_le (insert_item x l).
Proof.
  induction 1 as [ | y l Hl IH Hy ]; simpl.
  - repeat constructor.
  - destruct (String.leb (fst x) (fst y)) eqn:E.
    + constructor; [ constructor; assumption | ].
      assert (Hxy : key_le x y) by (unfold key_le, String.le; rewrite E; exact I).
      constructor; [ exact Hxy | ].
      eapply List.Forall_impl; [ | exact Hy ]. intros z Hz.
      unfold key_le in *. etransitivity; eassumption.
    + constructor; [ exact IH | ].
      assert (Hyx : key_le y x).
      { unfold key_le. destruct (String.le_total (fst y) (fst x)) as [H | H];
          [ exact H | ]. unfold String.le in H. rewrite E in H. destruct H. }
      rewrite (List.Forall_forall (key_le y)). intros z Hz.
      apply (Permutation_in _ (insert_item_perm x l)) in Hz.
      destruct Hz as [<- | Hz]; [ exact Hyx | ].
      rewrite List.Forall_forall in Hy. apply Hy, Hz.
Qed.

Lemma sorted_sorted {A : Type} (l : list (string * A)) :
  StronglySorted key_le (sorted l).
Proof.
  induction l as [ | x l IH ]; simpl; [ constructor | ].
  apply insert_item_sorted, IH.
Qed.

(** A list with distinct keys has one arrangement in key order. *)
Lemma sorted_unique {A : Type} (l1 l2 : list (string * A)) :
  StronglySorted key_le l1 -> StronglySorted key_le l2 ->
  NoDup (map fst l1) -> Permutation l1 l2 -> l1 = l2.
Proof.
  intros H1. revert l2.
  induction H1 as [ | x l1 Hl1 IH Hx ]; intros l2 H2 Hnd Hp.
  - apply Permutation_nil in Hp. auto.
  - destruct H2 as [ | y l2 Hl2 Hy ].
    + symmetry in Hp. apply Permutation_nil in Hp. discriminate.
    + simpl in Hnd. apply NoDup_cons in Hnd as [Hnin Hnd].
      assert (Hxy : x = y).
      { assert (Hin1 : In x (y :: l2)) by (apply (Permutation_in _ Hp); left; auto).
        assert (Hin2 : In y (x :: l1)) by
          (apply (Permutation_in _ (Permutation_sym Hp)); left; auto).
        destruct Hin1 as [-> | Hin1]; [ reflexivity | ].
        destruct Hin2 as [-> | Hin2]; [ reflexivity | ].
        rewrite List.Forall_forall in Hx, Hy.
        assert (Hk : fst x = fst y).
        { apply (anti_symm String.le); [ apply (Hx y Hin2) | apply (Hy x Hin1) ]. }
        exfalso. apply Hnin, list_elem_of_In. rewrite Hk. apply in_map, Hin2. }
      subst y. f_equal. apply IH; [ exact Hl2 | exact Hnd | ].
      apply Permutation_cons_inv in Hp. exact Hp.
Qed.

(** The order of insertion does not show once the items are sorted. *)
Lemma sorted_perm_eq {A : Type} (l1 l2 : list (string * A)) :
  NoDup (map fst l1) -> Permutation l1 l2 -> sorted l1 = sorted l2.
Proof.
  intros Hnd Hp. apply sorted_unique; try apply sorted_sorted.
  - rewrite (Permutation_map fst (sorted_perm l1)). exact Hnd.
  - rewrite !sorted_perm. exact Hp.
Qed.

(** * Key order and the canonical form *)

Lemma forallb_perm {A : Type} (f : A -> bool) (l1 l2 : list A) :
  Permutation l1 l2 -> forallb f l1 = forallb f l2.
Proof.
  induction 1 as [ | x l1 l2 _ IH | x y l | l1 l2 l3 _ IH1 _ IH2 ]; simpl.
  - reflexivity.
  - rewrite IH. reflexivity.
  - destruct (f x), (f y); reflexivity.
  - congruence.
Qed.

Lemma serializable_canon (v : pyval) : serializable (canon v) = serializable v.
Proof.
  induction v as [ | b | n | s | l IH | d IH | id | f IH | id ]
    using pyval_ind;
    try reflexivity.
  - simpl. induction IH as [ | x l Hx _ IHl ]; simpl; [ reflexivity | ].
    rewrite Hx, IHl. reflexivity.
  - simpl. rewrite (forallb_perm _ _ _ (sorted_perm _)).
    induction IH as [ | [k x] d Hx _ IHd ]; simpl in *; [ reflexivity | ].
    rewrite Hx, IHd. reflexivity.
Qed.

(** Encoding with [sort_keys=True] is encoding the canonical form as it
    stands. *)
Lemma render_canon (v : pyval) : render true v = render false (canon v).
Proof.
  induction v as [ | b | n | s | l IH | d IH | id | f IH | id ]
    using pyval_ind;
    try reflexivity.
  - simpl. do 3 f_equal. rewrite map_map.
    induction IH as [ | x l Hx _ IHl ]; simpl; [ reflexivity | ].
    rewrite Hx, IHl. reflexivity.
  - simpl. do 4 f_equal.
    rewrite <- (sorted_map (render false)). f_equal.
    induction IH as [ | [k x] d Hx _ IHd ]; simpl in *; [ reflexivity | ].
    rewrite Hx, IHd. reflexivity.
Qed.

Lemma canonical_json_render (v : pyval) :
  canonical_json v =
  if serializable v then Ok (render false (canon v)) else Raise TypeError.
Proof. unfold canonical_json. rewrite json_dumps_render, render_canon. reflexivity. Qed.

(** Two values with the same canonical encoding have the same canonical
    form. *)
Lemma canonical_json_inj (v1 v2 : pyval) (text : string) :
  canonical_json v1 = Ok text -> canonical_json v2 = Ok text ->
  canon v1 = canon v2.
Proof.
  rewrite !canonical_json_render.
  destruct (serializable v1) eqn:S1; [ | discriminate ].
  destruct (serializable v2) eqn:S2; [ | discriminate ].
  intros [= H1] [= H2]. apply render_inj.
  - rewrite serializable_canon. exact S1.
  - rewrite serializable_canon. exact S2.
  - congruence.
Qed.

Lemma canonical_json_canon (v1 v2 : pyval) :
  canon v1 = canon v2 -> canonical_json v1 = canonical_json v2.
Proof.
  intros H. rewrite !canonical_json_render.
  rewrite <- (serializable_canon v1), <- (serializable_canon v2), H.
  reflexivity.
Qed.

(** The same items inserted in another order: the same canonical form. *)
Lemma canon_dict_perm (d1 d2 : pydict) :
  NoDup (map fst d1) -> Permutation d1 d2 ->
  canon (PDict d1) = canon (PDict d2).
Proof.
  intros Hnd Hp. simpl. f_equal. apply sorted_perm_eq.
  - rewrite map_map. simpl. exact Hnd.
  - apply Permutation_map, Hp.
Qed.

(** The canonical form of what a block holds besides its [hash]. *)
Lemma block_content_eq (b : Block) :
  block_content b =
  PDict [("events", PList (map canon (map PDict (events b))));
         ("index", PInt (index b));
         ("nonce", PInt (nonce b));
         ("previous_hash", PStr (previous_hash b));
         ("timestamp_utc", PStr (timestamp_utc b))].
Proof. reflexivity. Qed.

Lemma block_content_fields (b1 b2 : Block) :
  block_content b1 = block_content b2 <->
  index b1 = index b2 /\ timestamp_utc b1 = timestamp_utc b2 /\
  previous_hash b1 = previous_hash b2 /\ nonce b1 = nonce b2 /\
  map canon (map PDict (events b1)) = map canon (map PDict (events b2)).
Proof.
  rewrite !block_content_eq. split.
  - intros [= He Hi Hn Hp Ht]. auto.
  - intros (-> & -> & -> & -> & ->). reflexivity.
Qed.

(** * The SHA-256 digest *)

Lemma hex8_length (w : Z) : String.length (SHA256.hex8 w) = 8%nat.
Proof. reflexivity. Qed.

Lemma sha256_hex_length (data : string) :
  String.length (sha256_hex data) = 64%nat.
Proof.
  unfold sha256_hex, SHA256.hexdigest.
  rewrite !length_sapp, !hex8_length. reflexivity.
Qed.

(** * Running the methods *)

#[local] Arguments sha256_hex : simpl never.

(** [_asdict_inner] in closed form. *)
Lemma _asdict_inner_spec (v : pyval) :
  _asdict_inner v = if copyable v then Ok (as_dicts v) else Raise TypeError.
Proof.
  induction v as [ | b | n | s | l IH | d IH | id | f IH | id ]
    using pyval_ind;
    try reflexivity.
  - simpl. rewrite (mapM_spec _ as_dicts copyable l IH).
    destruct (forallb copyable l); reflexivity.
  - simpl.
    rewrite (mapM_spec _ (fun kv => (fst kv, as_dicts (snd kv)))
                       (fun kv => copyable (snd kv)) d).
    + destruct (forallb _ d); reflexivity.
    + eapply List.Forall_impl; [ | exact IH ]. intros [k x] Hx. simpl in *.
      rewrite Hx. destruct (copyable x); reflexivity.
  - simpl.
    rewrite (mapM_spec _ (fun kv => (fst kv, as_dicts (snd kv)))
                       (fun kv => copyable (snd kv)) f).
    + destruct (forallb _ f); reflexivity.
    + eapply List.Forall_impl; [ | exact IH ]. intros [k x] Hx. simpl in *.
      rewrite Hx. destruct (copyable x); reflexivity.
Qed.

(** [asdict] leaves a JSON value as it is. *)
Lemma serializable_as_dicts (v : pyval) :
  serializable v = true -> copyable v = true /\ as_dicts v = v.
Proof.
  induction v as [ | b | n | s | l IH | d IH | id | f IH | id ]
    using pyval_ind;
    intros Hs; try discriminate Hs; try (split; reflexivity).
  - simpl in *. induction IH as [ | x l Hx _ IHl ]; [ split; reflexivity | ].
    simpl in Hs. apply andb_true_iff in Hs as [Sx Sl].
    destruct (Hx Sx) as [Cx Ex]. destruct (IHl Sl) as [Cl El].
    simpl. rewrite Cx, Cl, Ex. injection El as El. rewrite El.
    split; reflexivity.
  - simpl in *. induction IH as [ | [k x] d Hx _ IHd ]; [ split; reflexivity | ].
    simpl in Hs, Hx. apply andb_true_iff in Hs as [Sx Sd].
    destruct (Hx Sx) as [Cx Ex]. destruct (IHd Sd) as [Cd Ed].
    simpl. rewrite Cx, Cd, Ex. injection Ed as Ed. rewrite Ed.
    split; reflexivity.
Qed.


Lemma event_accepted_spec (e : Event) :
  event_accepted e =
  copyable (PDict (payload e)) && serializable (as_dicts (PDict (payload e))).
Proof.
  unfold event_accepted. rewrite _asdict_inner_spec.
  destruct (copyable (PDict (payload e))); reflexivity.
Qed.

Lemma event_ok_accepted (e : Event) :
  event_ok e = true -> event_accepted e = true.
Proof.
  unfold event_ok. intros H. rewrite event_accepted_spec.
  destruct (serializable_as_dicts _ H) as [-> ->]. exact H.
Qed.

Lemma events_ok_accepted (evs : list Event) :
  forallb event_ok evs = true -> forallb event_accepted evs = true.
Proof.
  rewrite !forallb_forall. intros H e He. apply event_ok_accepted, H, He.
Qed.

Lemma to_dict_run (e : Event) (s : state) :
  exists (d : pydict) (n : nat),
    event_dict e d /\
    to_dict e s =
      if event_copyable e
      then (Ok d, mkState (chain s) (clock s) n)
      else (Raise TypeError, s).
Proof.
  unfold to_dict, bind, lift, event_dict, event_copyable.
  rewrite _asdict_inner_spec.
  destruct s as [c k n].
  destruct (copyable (PDict (payload e))).
  - destruct (String.eqb (ev_timestamp_utc e) ""); simpl;
      eexists _, _; (split; [ eexists; reflexivity | reflexivity ]).
  - exists [("event_type", PStr (event_type e));
            ("actor_role", PStr (actor_role e));
            ("actor_id", PStr (actor_id e));
            ("payload", as_dicts (PDict (payload e)));
            ("timestamp_utc", PStr "")], n.
    split; [ eexists; reflexivity | reflexivity ].
Qed.

Lemma forM_to_dict_run (evs : list Event) (s : state) :
  exists (dicts : list pydict) (n : nat),
    (forallb event_copyable evs = true ->
     Forall2 event_dict evs dicts) /\
    forM to_dict evs s =
      if forallb event_copyable evs
      then (Ok dicts, mkState (chain s) (clock s) n)
      else (Raise TypeError, mkState (chain s) (clock s) n).
Proof.
  revert s. induction evs as [ | e evs IH ]; intros s.
  - destruct s as [c k n]. exists [], n.
    split; [ constructor | reflexivity ].
  - destruct (to_dict_run e s) as (d & n & Hed & Hd).
    cbn [forallb]. simpl forM. unfold bind at 1. rewrite Hd.
    destruct (event_copyable e); simpl andb.
    + destruct (IH (mkState (chain s) (clock s) n)) as (ds & n' & Heds & Hds).
      simpl chain in Hds. simpl clock in Hds.
      unfold bind at 1. rewrite Hds.
      destruct (forallb event_copyable evs).
      * exists (d :: ds), n'. split; [ | reflexivity ].
        intros _. constructor; [ exact Hed | apply Heds; reflexivity ].
      * exists [], n'. split; [ discriminate | reflexivity ].
    + exists [], (ticks s). destruct s as [c k t].
      split; [ discriminate | reflexivity ].
Qed.

Lemma event_dicts_serializable (evs : list Event) (dicts : list pydict) :
  forallb event_copyable evs = true ->
  Forall2 event_dict evs dicts ->
  forallb (fun d => serializable (PDict d)) dicts = forallb event_accepted evs.
Proof.
  intros Hc H. induction H as [ | e d evs dicts [ts ->] _ IH ];
    [ reflexivity | ].
  cbn [forallb] in Hc. apply andb_true_iff in Hc as [Hce Hc].
  unfold event_copyable in Hce.
  change (forallb event_accepted (e :: evs))
    with (event_accepted e && forallb event_accepted evs).
  rewrite <- (IH Hc), event_accepted_spec, Hce.
  cbn [forallb serializable snd andb]. rewrite andb_true_r. reflexivity.
Qed.

Lemma events_accepted_copyable (evs : list Event) :
  forallb event_copyable evs = false ->
  forallb event_accepted evs = false.
Proof.
  induction evs as [ | e evs IH ]; [ discriminate | ].
  cbn [forallb]. rewrite event_accepted_spec. unfold event_copyable at 1.
  destruct (copyable (PDict (payload e))); cbn [andb]; [ | reflexivity ].
  intros H. rewrite (IH H). apply andb_false_r.
Qed.

Lemma block_serializable (b : Block) :
  serializable (block_obj b) =
  forallb (fun d => serializable (PDict d)) (events b).
Proof.
  unfold block_obj. simpl. rewrite andb_true_r.
  induction (events b) as [ | d ds IH ]; simpl; [ reflexivity | ].
  rewrite IH. reflexivity.
Qed.

(** The digest of a block is the SHA-256 of the text of its content, when
    the content has a text. *)
Lemma compute_hash_render (b : Block) :
  compute_hash b =
  if serializable (block_obj b)
  then Ok (sha256_hex (render false (block_content b)))
  else Raise TypeError.
Proof.
  unfold compute_hash, block_content. rewrite canonical_json_render.
  destruct (serializable (block_obj b)); reflexivity.
Qed.

(** The stored [hash] is no input of the digest. *)
Lemma compute_hash_ignores_hash (i : Z) (t p : string) (evs : list pydict)
    (n : Z) (h h' : string) :
  compute_hash (mkBlock i t p evs n h) = compute_hash (mkBlock i t p evs n h').
Proof. reflexivity. Qed.

Ltac run_monad :=
  cbv [bind ret raise lift get_chain set_chain utc_now_iso chain clock ticks].

Lemma init_run (s0 : state) :
  exists g : Block,
    __init__ s0 =
      (Ok tt, mkState [g] (clock s0) (S (S (ticks s0)))) /\
    index g = 0 /\
    timestamp_utc g = clock s0 (ticks s0) /\
    previous_hash g = zeros64 /\
    events g = genesis_events (clock s0 (S (ticks s0))) /\
    nonce g = 0 /\
    compute_hash g = Ok (hash g).
Proof.
  destruct s0 as [c k n].
  pose (g0 := mkBlock 0 (k n) zeros64 (genesis_events (k (S n))) 0 "").
  pose proof (compute_hash_render g0) as Hh.
  change (serializable (block_obj g0)) with true in Hh. cbv iota in Hh.
  exists (mkBlock (index g0) (timestamp_utc g0) (previous_hash g0) (events g0)
                  (nonce g0) (sha256_hex (render false (block_content g0)))).
  split; [ | repeat (split; [ reflexivity | ]);
             rewrite (compute_hash_ignores_hash _ _ _ _ _ _ ""); exact Hh ].
  unfold __init__, _create_genesis_block. run_monad.
  fold (genesis_events (k (S n))). fold g0. rewrite Hh. reflexivity.
Qed.

Lemma last_lookup_nonempty (c : list Block) :
  c <> [] -> exists prev, last c = Some prev /\ c !! (length c - 1)%nat = Some prev.
Proof.
  intros Hc. destruct (last c) as [prev | ] eqn:E.
  - exists prev. split; [ reflexivity | ].
    rewrite last_lookup in E. rewrite Nat.sub_1_r. exact E.
  - apply last_None in E. contradiction.
Qed.

(** What [add_block] does on a ledger holding at least its genesis block. *)
Lemma add_block_run (evs : list Event) (s : state) :
  chain s <> [] ->
  exists (prev b : Block) (n : nat),
    last (chain s) = Some prev /\
    index b = Z.of_nat (length (chain s)) /\
    previous_hash b = hash prev /\
    (forallb event_accepted evs = true -> Forall2 event_dict evs (events b)) /\
    nonce b = 0 /\
    (forallb event_accepted evs = true -> compute_hash b = Ok (hash b)) /\
    add_block evs s =
      if forallb event_accepted evs
      then (Ok b, mkState (chain s ++ [b]) (clock s) n)
      else (Raise TypeError, mkState (chain s) (clock s) n).
Proof.
  intros Hc. destruct (last_lookup_nonempty _ Hc) as (prev & Hlast & _).
  destruct (forM_to_dict_run evs s) as (dicts & n & Hdicts & Hrun).
  pose (b0 := mkBlock (Z.of_nat (length (chain s))) (clock s n) (hash prev)
                      dicts 0 "").
  pose proof (compute_hash_render b0) as Hh.
  exists prev,
    (mkBlock (index b0) (timestamp_utc b0) (previous_hash b0) (events b0)
             (nonce b0) (sha256_hex (render false (block_content b0)))).
  destruct (forallb event_copyable evs) eqn:Hcopy.
  - assert (Hser : serializable (block_obj b0) = forallb event_accepted evs).
    { rewrite block_serializable.
      apply event_dicts_serializable; [ exact Hcopy | apply Hdicts; reflexivity ]. }
    rewrite Hser in Hh. exists (S n).
    split; [ exact Hlast | ].
    split; [ reflexivity | ]. split; [ reflexivity | ].
    split; [ intros _; apply Hdicts; reflexivity | ]. split; [ reflexivity | ].
    split.
    + intros Hok. rewrite Hok in Hh.
      rewrite (compute_hash_ignores_hash _ _ _ _ _ _ ""). exact Hh.
    + destruct s as [c k t]. simpl in *.
      unfold add_block. run_monad. rewrite Hlast, Hrun. fold b0. rewrite Hh.
      destruct (forallb event_accepted evs); reflexivity.
  - rewrite (events_accepted_copyable evs Hcopy). exists n.
    split; [ exact Hlast | ].
    split; [ reflexivity | ]. split; [ reflexivity | ].
    split; [ discriminate | ]. split; [ reflexivity | ].
    split; [ discriminate | ].
    destruct s as [c k t]. simpl in *.
    unfold add_block. run_monad. rewrite Hlast, Hrun. reflexivity.
Qed.

(** * The validation loop *)

Lemma passes_not_fails (c : list Block) (i : nat) :
  passes c i -> fails c i -> False.
Proof.
  intros (cur & prev & Hc & Hp & Hl & Hh) (cur' & prev' & Hc' & Hp' & Hf).
  assert (cur' = cur) as -> by congruence.
  assert (prev' = prev) as -> by congruence.
  destruct Hf as [Hf | (h & Hh' & Hne)]; [ contradiction | ].
  rewrite Hh in Hh'. injection Hh' as <-. contradiction.
Qed.

(** One turn of the loop: go on, return [False], or raise. *)
Lemma loop_turn (c : list Block) (i : nat) :
  (passes c i /\
   forall range, is_valid_loop c (i :: range) = is_valid_loop c range) \/
  (fails c i /\ forall range, is_valid_loop c (i :: range) = Ok false) \/
  (~ passes c i /\ ~ fails c i /\
   exists e, forall range, is_valid_loop c (i :: range) = Raise e).
Proof.
  simpl.
  destruct (c !! i) as [cur | ] eqn:Hc.
  2:{ right. right. split; [ | split ].
      - intros (? & ? & ? & _). congruence.
      - intros (? & ? & ? & _). congruence.
      - exists IndexError. reflexivity. }
  destruct (c !! (i - 1)%nat) as [prev | ] eqn:Hp.
  2:{ right. right. split; [ | split ].
      - intros (? & ? & _ & ? & _). congruence.
      - intros (? & ? & _ & ? & _). congruence.
      - exists IndexError. reflexivity. }
  destruct (String.eqb_spec (previous_hash cur) (hash prev)) as [Hl | Hl]; simpl.
  2:{ right. left. split; [ | reflexivity ].
      exists cur, prev. auto. }
  destruct (compute_hash cur) as [h | e] eqn:Hh.
  2:{ right. right. split; [ | split ].
      - intros (? & ? & ? & _ & _ & ?). congruence.
      - intros (? & ? & ? & ? & [? | (? & ? & _)]); congruence.
      - exists e. reflexivity. }
  destruct (String.eqb_spec (hash cur) h) as [He | He]; simpl.
  - left. split; [ | reflexivity ]. exists cur, prev. subst h. auto.
  - right. left. split; [ | reflexivity ].
    exists cur, prev. split; [ exact Hc | split; [ exact Hp | ] ].
    right. exists h. split; [ exact Hh | congruence ].
Qed.

Lemma loop_seq_true (c : list Block) (n a : nat) :
  is_valid_loop c (seq a n) = Ok true <->
  forall i : nat, (a <= i < a + n)%nat -> passes c i.
Proof.
  revert a. induction n as [ | n IH ]; intros a.
  - simpl. split; [ intros _ i Hi; lia | reflexivity ].
  - change (seq a (S n)) with (a :: seq (S a) n).
    destruct (loop_turn c a) as [[Hp Hr] | [[Hf Hr] | (Hnp & _ & e & Hr)]];
      rewrite Hr.
    + rewrite IH. split.
      * intros H i Hi. destruct (Nat.eq_dec i a) as [-> | Hne];
          [ exact Hp | apply H; lia ].
      * intros H i Hi. apply H. lia.
    + split; [ discriminate | ]. intros H. exfalso.
      apply (passes_not_fails c a); [ apply H; lia | exact Hf ].
    + split; [ discriminate | ]. intros H. exfalso. apply Hnp, H. lia.
Qed.

Lemma loop_seq_false (c : list Block) (n a : nat) :
  is_valid_loop c (seq a n) = Ok false <->
  exists i : nat,
    (a <= i < a + n)%nat /\ fails c i /\
    forall j : nat, (a <= j < i)%nat -> passes c j.
Proof.
  revert a. induction n as [ | n IH ]; intros a.
  - simpl. split; [ discriminate | intros (i & Hi & _); lia ].
  - change (seq a (S n)) with (a :: seq (S a) n).
    destruct (loop_turn c a) as [[Hp Hr] | [[Hf Hr] | (Hnp & Hnf & e & Hr)]];
      rewrite Hr.
    + rewrite IH. split.
      * intros (i & Hi & Hf & Hj). exists i.
        split; [ lia | split; [ exact Hf | ] ].
        intros j Hji. destruct (Nat.eq_dec j a) as [-> | Hne];
          [ exact Hp | apply Hj; lia ].
      * intros (i & Hi & Hf & Hj). exists i.
        destruct (Nat.eq_dec i a) as [-> | Hne];
          [ exfalso; exact (passes_not_fails c a Hp Hf) | ].
        split; [ lia | split; [ exact Hf | ] ].
        intros j Hji. apply Hj. lia.
    + split; [ | reflexivity ]. intros _. exists a.
      split; [ lia | split; [ exact Hf | ] ]. intros j Hj. lia.
    + split; [ discriminate | ]. intros (i & Hi & Hf & Hj). exfalso.
      destruct (Nat.eq_dec i a) as [-> | Hne];
        [ exact (Hnf Hf) | apply Hnp, Hj; lia ].
Qed.

Lemma is_valid_run (s : state) :
  is_valid s = (is_valid_loop (chain s) (seq 1 (length (chain s) - 1)), s).
Proof. reflexivity. Qed.

Lemma is_valid_true (s : state) :
  fst (is_valid s) = Ok true <->
  forall i : nat, (1 <= i < length (chain s))%nat -> passes (chain s) i.
Proof.
  rewrite is_valid_run. simpl fst. rewrite loop_seq_true.
  split; intros H i Hi; apply H; lia.
Qed.

Lemma is_valid_false (s : state) :
  fst (is_valid s) = Ok false <->
  exists i : nat,
    (1 <= i < length (chain s))%nat /\ fails (chain s) i /\
    forall j : nat, (1 <= j < i)%nat -> passes (chain s) j.
Proof.
  rewrite is_valid_run. simpl fst. rewrite loop_seq_false.
  split; intros (i & Hi & H); exists i; (split; [ lia | exact H ]).
Qed.

(** * What every ledger state satisfies *)

Lemma passes_app (c : list Block) (b : Block) (i : nat) :
  passes c i -> passes (c ++ [b]) i.
Proof.
  intros (cur & prev & Hc & Hp & Hl & Hh). exists cur, prev.
  split; [ apply lookup_app_l_Some, Hc | ].
  split; [ apply lookup_app_l_Some, Hp | auto ].
Qed.

Lemma ledger_inv_snoc (c : list Block) (prev b : Block) :
  ledger_inv c -> last c = Some prev ->
  index b = Z.of_nat (length c) -> previous_hash b = hash prev ->
  compute_hash b = Ok (hash b) ->
  ledger_inv (c ++ [b]).
Proof.
  intros (Hne & Hidx & Hpass) Hlast Hi Hl Hh.
  split; [ | split ].
  - destruct c; discriminate.
  - intros i x Hx. apply lookup_app_Some in Hx as [Hx | [Hlen Hx]].
    + apply Hidx, Hx.
    + apply list_lookup_singleton_Some in Hx as [Hz <-].
      rewrite Hi. f_equal. lia.
  - intros i Hi'. rewrite length_app in Hi'. simpl in Hi'.
    destruct (Nat.eq_dec i (length c)) as [-> | Hne'].
    + exists b, prev.
      split; [ apply list_lookup_middle; reflexivity | ].
      split; [ | auto ].
      apply lookup_app_l_Some. rewrite last_lookup in Hlast.
      rewrite Nat.sub_1_r. exact Hlast.
    + apply passes_app, Hpass. lia.
Qed.

Lemma ledger_inv_init (s0 : state) : ledger_inv (chain (snd (__init__ s0))).
Proof.
  destruct (init_run s0) as (g & Hrun & Hi & _). rewrite Hrun. simpl.
  split; [ discriminate | split ].
  - intros [ | i ] b Hb; simpl in Hb; [ | discriminate ].
    injection Hb as <-. exact Hi.
  - intros i Hi'. simpl in Hi'. lia.
Qed.

Lemma ledger_inv_add_block (evs : list Event) (s : state) :
  ledger_inv (chain s) -> ledger_inv (chain (snd (add_block evs s))).
Proof.
  intros Hinv.
  destruct (add_block_run evs s (proj1 Hinv))
    as (prev & b & n & Hlast & Hi & Hl & _ & _ & Hh & Hrun).
  rewrite Hrun. destruct (forallb event_accepted evs); simpl; [ | exact Hinv ].
  apply (ledger_inv_snoc _ prev); auto.
Qed.

Lemma reachable_inv (s : state) : reachable s -> ledger_inv (chain s).
Proof.
  induction 1 as [ s0 | s evs _ IH ].
  - apply ledger_inv_init.
  - apply ledger_inv_add_block, IH.
Qed.

Lemma appends_reachable (batches : list (list Event)) (s : state) :
  reachable s -> reachable (appends batches s).
Proof.
  revert s. induction batches as [ | evs rest IH ]; intros s Hs; simpl.
  - exact Hs.
  - apply IH. constructor. exact Hs.
Qed.

Lemma reachable_valid (s : state) : reachable s -> fst (is_valid s) = Ok true.
Proof.
  intros Hs. apply is_valid_true. apply (reachable_inv s Hs).
Qed.

(** [is_valid] reads of block 0 its stored [hash] only. *)
Lemma loop_genesis_irrelevant (g1 g2 : Block) (rest : list Block)
    (range : list nat) :
  hash g1 = hash g2 -> Forall (fun i => (1 <= i)%nat) range ->
  is_valid_loop (g1 :: rest) range = is_valid_loop (g2 :: rest) range.
Proof.
  intros Hh. induction 1 as [ | i range Hi _ IH ]; [ reflexivity | ].
  simpl. destruct i as [ | i ]; [ lia | ]. simpl.
  rewrite Nat.sub_0_r. destruct (rest !! i) as [cur | ]; [ | reflexivity ].
  destruct i as [ | i ]; simpl.
  - rewrite Hh, IH. reflexivity.
  - rewrite IH. reflexivity.
Qed.

Lemma seq_from_one (n : nat) : Forall (fun i => (1 <= i)%nat) (seq 1 n).
Proof. apply List.Forall_forall. intros i Hi. apply in_seq in Hi. lia. Qed.

(** Overwriting block [i] leaves the blocks before it as they pass. *)
Lemma passes_before_tamper (c : list Block) (i j : nat) (b' : Block) :
  (j < i)%nat -> passes c j -> passes (<[i := b']> c) j.
Proof.
  intros Hj (cur & prev & Hc & Hp & Hl & Hh). exists cur, prev.
  rewrite !list_lookup_insert_ne by lia. auto.
Qed.

(** No turn of the loop raises when every block has a JSON text. *)
Lemma loop_seq_total (c : list Block) (n a : nat) :
  Forall (fun b => serializable (block_obj b) = true) c ->
  (1 <= a)%nat -> (a + n <= length c)%nat ->
  exists r : bool, is_valid_loop c (seq a n) = Ok r.
Proof.
  intros Hser. revert a. induction n as [ | n IH ]; intros a Ha Hn.
  - exists true. reflexivity.
  - change (seq a (S n)) with (a :: seq (S a) n).
    destruct (loop_turn c a) as [[_ Hr] | [[_ Hr] | (Hnp & Hnf & _)]].
    + rewrite Hr. apply IH; lia.
    + rewrite Hr. exists false. reflexivity.
    + exfalso.
      destruct (lookup_lt_is_Some_2 c a) as [cur Hc]; [ lia | ].
      destruct (lookup_lt_is_Some_2 c (a - 1)) as [prev Hp]; [ lia | ].
      assert (Hs : serializable (block_obj cur) = true).
      { rewrite List.Forall_forall in Hser. apply Hser.
        apply list_elem_of_In, list_elem_of_lookup. exists a. exact Hc. }
      pose proof (compute_hash_render cur) as Hh. rewrite Hs in Hh.
      destruct (string_dec (previous_hash cur) (hash prev)) as [Hl | Hl].
      * destruct (string_dec (sha256_hex (render false (block_content cur)))
                             (hash cur)) as [He | He].
        -- apply Hnp. exists cur, prev. rewrite Hh, He. auto.
        -- apply Hnf. exists cur, prev. split; [ exact Hc | ].
           split; [ exact Hp | right ]. eexists. split; [ exact Hh | exact He ].
      * apply Hnf. exists cur, prev. auto.
Qed.

(** * The demo ledger *)

Example ledger1_chain : chain ledger1 = [demo_genesis].
Proof. vm_compute. reflexivity. Qed.

Example ledger2_chain : chain ledger2 = [demo_genesis; demo_block1].
Proof. vm_compute. reflexivity. Qed.

Lemma ledger1_reachable : reachable ledger1.
Proof. apply reachable_init. Qed.

Lemma ledger2_reachable : reachable ledger2.
Proof. apply reachable_add_block, ledger1_reachable. Qed.

(** * Properties of the ledger *)

(** C2. [is_valid] walks the blocks from index 1 to the tip.  It returns
    [True] exactly when every block passes both checks (its
    [previous_hash] is the stored [hash] of the block before it, and its
    recomputed digest is its stored [hash]); it returns [False] exactly
    when some block fails a check and every block before it passes, that
    is, at the first failing block.  On a chain whose blocks all have a
    JSON text it always returns one of the two.  It changes nothing, and
    a second call returns what the first returned. *)
Theorem C2_is_valid_walk (s : state) :
  (fst (is_valid s) = Ok true <->
   forall i : nat, (1 <= i < length (chain s))%nat -> passes (chain s) i) /\
  (fst (is_valid s) = Ok false <->
   exists i : nat,
     (1 <= i < length (chain s))%nat /\ fails (chain s) i /\
     forall j : nat, (1 <= j < i)%nat -> passes (chain s) j) /\
  (Forall (fun b => serializable (block_obj b) = true) (chain s) ->
   exists r : bool, fst (is_valid s) = Ok r) /\
  snd (is_valid s) = s /\
  is_valid (snd (is_valid s)) = is_valid s.
Proof.
  split; [ apply is_valid_true | ].
  split; [ apply is_valid_false | ].
  split; [ | split; reflexivity ].
  intros Hser. rewrite is_valid_run. simpl fst.
  destruct (chain s) as [ | g rest ] eqn:Hc; [ exists true; reflexivity | ].
  apply loop_seq_total; [ exact Hser | lia | simpl; lia ].
Qed.

(** C3, as stated, fails: a batch that is not empty, on the ledger a
    constructor leaves, with a payload holding an object [json.dumps] has
    no encoding for.  [add_block] raises [TypeError] and returns no block;
    the chain keeps its length. *)
Lemma C3_rejected_batch_not_appended :
  [bad_event] <> [] /\ reachable ledger1 /\
  fst (add_block [bad_event] ledger1) = Raise TypeError /\
  length (chain (snd (add_block [bad_event] ledger1))) =
  length (chain ledger1).
Proof.
  split; [ discriminate | ]. split; [ exact ledger1_reachable | ].
  split; vm_compute; reflexivity.
Qed.

(** C3, amended. On a ledger holding at least one block, take a batch that
    is not empty, whose payloads are made of JSON values and of instances
    of dataclasses of such values (what [asdict] and [json.dumps] convert),
    within the limits of the interpreter.  [add_block] returns a block
    whose [previous_hash] is the [hash] of the prior tip and whose [index]
    is the prior number of blocks; the chain is the prior chain followed
    by that block: one block longer, every stored block unchanged. *)
Theorem C3_add_block_appends (s : state) (evs : list Event) :
  chain s <> [] -> evs <> [] ->
  forallb event_accepted evs = true ->
  forallb event_within_limits evs = true ->
  exists tip b : Block,
    last (chain s) = Some tip /\
    fst (add_block evs s) = Ok b /\
    previous_hash b = hash tip /\
    index b = Z.of_nat (length (chain s)) /\
    chain (snd (add_block evs s)) = chain s ++ [b] /\
    length (chain (snd (add_block evs s))) = S (length (chain s)) /\
    forall i : nat, (i < length (chain s))%nat ->
      chain (snd (add_block evs s)) !! i = chain s !! i.
Proof.
  intros Hc _ Hok _.
  destruct (add_block_run evs s Hc)
    as (tip & b & n & Hlast & Hi & Hl & _ & _ & _ & Hrun).
  rewrite Hok in Hrun. rewrite Hrun. simpl.
  exists tip, b. repeat (split; [ assumption || reflexivity | ]).
  split; [ rewrite length_app; simpl; lia | ].
  intros i Hi'. apply lookup_app_l. exact Hi'.
Qed.

Lemma C3_add_block_appends_witness :
  chain ledger1 <> [] /\ [demo_event; dataclass_event] <> [] /\
  forallb event_accepted [demo_event; dataclass_event] = true /\
  forallb event_within_limits [demo_event; dataclass_event] = true /\
  exists tip b : Block,
    last (chain ledger1) = Some tip /\
    fst (add_block [demo_event; dataclass_event] ledger1) = Ok b /\
    previous_hash b = hash tip /\
    index b = Z.of_nat (length (chain ledger1)) /\
    chain (snd (add_block [demo_event; dataclass_event] ledger1)) =
      chain ledger1 ++ [b] /\
    length (chain (snd (add_block [demo_event; dataclass_event] ledger1))) =
      S (length (chain ledger1)) /\
    forall i : nat, (i < length (chain ledger1))%nat ->
      chain (snd (add_block [demo_event; dataclass_event] ledger1)) !! i =
      chain ledger1 !! i.
Proof.
  assert (H1 : chain ledger1 <> []) by (rewrite ledger1_chain; discriminate).
  assert (H2 : [demo_event; dataclass_event] <> []) by discriminate.
  assert (H3 : forallb event_accepted [demo_event; dataclass_event] = true)
    by reflexivity.
  assert (H4 : forallb event_within_limits [demo_event; dataclass_event] = true)
    by (vm_compute; reflexivity).
  split; [ exact H1 | ]. split; [ exact H2 | ]. split; [ exact H3 | ].
  split; [ exact H4 | ].
  exact (C3_add_block_appends ledger1 [demo_event; dataclass_event]
           H1 H2 H3 H4).
Defined.

(** C4. A freshly constructed ledger is valid, and so is the ledger after
    any number of appends in sequence. *)
Theorem C4_appends_keep_valid (s0 : state) (batches : list (list Event)) :
  fst (is_valid (snd (__init__ s0))) = Ok true /\
  fst (is_valid (appends batches (snd (__init__ s0)))) = Ok true.
Proof.
  split; apply reachable_valid.
  - apply reachable_init.
  - apply appends_reachable, reachable_init.
Qed.

(** C5. [add_block] of an empty batch raises nothing: on the fresh ledger
    it returns a block with no event, index 1, linked to the genesis
    block, and the chain holds two blocks afterwards. *)
Theorem C5_empty_batch_is_appended :
  exists b : Block,
    fst (add_block [] ledger1) = Ok b /\
    events b = [] /\ index b = 1 /\ previous_hash b = hash demo_genesis /\
    chain (snd (add_block [] ledger1)) = [demo_genesis; b].
Proof.
  eexists. split; [ vm_compute; reflexivity | ].
  do 3 (split; [ reflexivity | ]). vm_compute. reflexivity.
Qed.



(** C9. Constructing a ledger makes one block: index 0, [previous_hash]
    sixty-four zeros (the length of a SHA-256 digest in hexadecimal), the
    one [GENESIS] event, and the digest of the block stored as its [hash].
    In every state of the ledger the chain is not empty and the block at
    position [i] has index [i]. *)
Theorem C9_genesis_and_indices :
  (forall s0 : state,
     exists g : Block,
       fst (__init__ s0) = Ok tt /\
       chain (snd (__init__ s0)) = [g] /\
       index g = 0 /\
       previous_hash g = str_mul "0" 64 /\
       (forall data : string,
          String.length (previous_hash g) = String.length (sha256_hex data)) /\
       events g = genesis_events (clock s0 (S (ticks s0))) /\
       length (events g) = 1%nat /\
       compute_hash g = Ok (hash g)) /\
  (forall s : state, reachable s ->
     chain s <> [] /\
     forall (i : nat) (b : Block),
       chain s !! i = Some b -> index b = Z.of_nat i).
Proof.
  split.
  - intros s0. destruct (init_run s0) as (g & Hrun & Hi & _ & Hp & He & _ & Hh).
    exists g. rewrite Hrun.
    split; [ reflexivity | ]. split; [ reflexivity | ].
    split; [ exact Hi | ]. split; [ exact Hp | ].
    split; [ intros data; rewrite Hp, sha256_hex_length; reflexivity | ].
    split; [ exact He | ]. split; [ rewrite He; reflexivity | exact Hh ].
  - intros s Hs. destruct (reachable_inv s Hs) as (Hne & Hidx & _). auto.
Qed.

(** C10. [is_valid] does not look at what block 0 holds besides its stored
    [hash]: two chains with the same blocks from index 1 on and the same
    [hash] in block 0 get the same verdict, so overwriting the genesis
    block while keeping its [hash] never changes the verdict. *)
Theorem C10_genesis_content_unchecked :
  (forall (s1 s2 : state) (g1 g2 : Block) (rest : list Block),
     chain s1 = g1 :: rest -> chain s2 = g2 :: rest -> hash g1 = hash g2 ->
     fst (is_valid s1) = fst (is_valid s2)) /\
  (forall (s : state) (g g' : Block),
     chain s !! 0%nat = Some g -> hash g' = hash g ->
     fst (is_valid (tamper 0 g' s)) = fst (is_valid s)).
Proof.
  assert (H : forall (s1 s2 : state) (g1 g2 : Block) (rest : list Block),
             chain s1 = g1 :: rest -> chain s2 = g2 :: rest ->
             hash g1 = hash g2 -> fst (is_valid s1) = fst (is_valid s2)).
  { intros s1 s2 g1 g2 rest H1 H2 Hh. rewrite !is_valid_run. simpl fst.
    rewrite H1, H2. simpl length.
    apply loop_genesis_irrelevant; [ exact Hh | apply seq_from_one ]. }
  split; [ exact H | ].
  intros s g g' Hg Hh. destruct (chain s) as [ | g0 rest ] eqn:Hc;
    [ discriminate | ].
  simpl in Hg. injection Hg as ->.
  apply (H _ _ g' g rest); [ simpl; rewrite Hc; reflexivity | exact Hc | exact Hh ].
Qed.

Lemma payload_reordered_canon (d1 d2 : pydict) :
  payload_reordered d1 d2 -> canon (PDict d1) = canon (PDict d2).
Proof.
  intros (pre & post & p1 & p2 & -> & -> & Hnd & Hp).
  simpl. rewrite !map_app. simpl.
  pose proof (canon_dict_perm p1 p2 Hnd Hp) as H. simpl in H. rewrite H.
  reflexivity.
Qed.

(** C7. Two payloads holding the same items, inserted in different orders,
    have the same canonical encoding, and two blocks that differ only by
    such reorderings of the payloads of their events have the same
    digest. *)
Theorem C7_key_order_independent :
  (forall p1 p2 : pydict,
     NoDup (map fst p1) -> Permutation p1 p2 ->
     canonical_json (PDict p1) = canonical_json (PDict p2)) /\
  (forall b1 b2 : Block,
     index b1 = index b2 -> timestamp_utc b1 = timestamp_utc b2 ->
     previous_hash b1 = previous_hash b2 -> nonce b1 = nonce b2 ->
     Forall2 payload_reordered (events b1) (events b2) ->
     compute_hash b1 = compute_hash b2).
Proof.
  split.
  - intros p1 p2 Hnd Hp. apply canonical_json_canon, canon_dict_perm; assumption.
  - intros b1 b2 Hi Ht Hp Hn He. unfold compute_hash.
    rewrite (canonical_json_canon (block_obj b1) (block_obj b2)); [ reflexivity | ].
    apply block_content_fields. repeat (split; [ assumption | ]).
    induction He as [ | d1 d2 l1 l2 Hd _ IH ]; [ reflexivity | ].
    simpl map. f_equal; [ apply payload_reordered_canon, Hd | exact IH ].
Qed.

Lemma C6_nonce_is_hashed :
  index demo_block1_nonce = index demo_block1 /\
  timestamp_utc demo_block1_nonce = timestamp_utc demo_block1 /\
  previous_hash demo_block1_nonce = previous_hash demo_block1 /\
  events demo_block1_nonce = events demo_block1 /\
  compute_hash demo_block1 =
    Ok "892d2500d944891ed102a25e64805bd836ce8bf117772b7ba85855d0d4fbc94c" /\
  compute_hash demo_block1_nonce <> compute_hash demo_block1.
Proof.
  do 4 (split; [ reflexivity | ]).
  split; [ vm_compute; reflexivity | ].
  vm_compute. intros H. discriminate H.
Qed.

(** C6, amended. The digest of a block is the SHA-256 of the canonical
    encoding of its index, timestamp, previous hash, events and nonce:
    the stored [hash] is no input, blocks equal in the five fields have
    the same digest, and the encoded text determines each of the five
    (the events up to the insertion order of dict keys).  Computing it
    reads and changes no state. *)
Theorem C6_digest_inputs :
  (forall b : Block,
     compute_hash b =
     match canonical_json
             (PDict [("index", PInt (index b));
                     ("timestamp_utc", PStr (timestamp_utc b));
                     ("previous_hash", PStr (previous_hash b));
                     ("events", PList (map PDict (events b)));
                     ("nonce", PInt (nonce b))]) with
     | Raise e => Raise e
     | Ok text => Ok (sha256_hex text)
     end) /\
  (forall (b : Block) (h : string),
     compute_hash (mkBlock (index b) (timestamp_utc b) (previous_hash b)
                           (events b) (nonce b) h) = compute_hash b) /\
  (forall b1 b2 : Block,
     index b1 = index b2 -> timestamp_utc b1 = timestamp_utc b2 ->
     previous_hash b1 = previous_hash b2 -> events b1 = events b2 ->
     nonce b1 = nonce b2 -> compute_hash b1 = compute_hash b2) /\
  (forall (b1 b2 : Block) (text : string),
     canonical_json (block_obj b1) = Ok text ->
     canonical_json (block_obj b2) = Ok text ->
     index b1 = index b2 /\ timestamp_utc b1 = timestamp_utc b2 /\
     previous_hash b1 = previous_hash b2 /\ nonce b1 = nonce b2 /\
     map canon (map PDict (events b1)) = map canon (map PDict (events b2))) /\
  (forall (b : Block) (s : state), lift (compute_hash b) s = (compute_hash b, s)).
Proof.
  split; [ reflexivity | ]. split; [ reflexivity | ].
  split; [ | split; [ | reflexivity ] ].
  - intros b1 b2 Hi Ht Hp He Hn. unfold compute_hash, block_obj.
    rewrite Hi, Ht, Hp, He, Hn. reflexivity.
  - intros b1 b2 text H1 H2. apply block_content_fields.
    exact (canonical_json_inj _ _ _ H1 H2).
Qed.

(** C1 as stated fails on the genesis block: after one append, the event
    of block 0 is overwritten, its recomputed digest no longer is its
    stored [hash], and [is_valid] still returns [True]. *)
Lemma C1_genesis_tamper_undetected :
  reachable ledger2 /\
  chain ledger2 !! 0%nat = Some demo_genesis /\
  hash forged_genesis = hash demo_genesis /\
  events forged_genesis <> events demo_genesis /\
  compute_hash forged_genesis <> Ok (hash forged_genesis) /\
  fst (is_valid (tamper 0 forged_genesis ledger2)) = Ok true.
Proof.
  split; [ exact ledger2_reachable | ].
  split; [ rewrite ledger2_chain; reflexivity | ].
  split; [ reflexivity | ].
  split; [ intros H; discriminate H | ].
  split; [ vm_compute; intros H; discriminate H | ].
  vm_compute. reflexivity.
Qed.

(** C1, amended. In a state of the ledger, overwrite a stored block other
    than the genesis block, keeping its stored [hash], with contents that
    have a JSON text and differ from the original ones in the index, the
    timestamp, the previous hash, the nonce or the events (by more than
    the insertion order of dict keys).  Unless the two encodings are a
    SHA-256 collision, [is_valid] then returns [False]. *)
Theorem C1_tamper_detected (s : state) (i : nat) (b b' : Block) :
  reachable s -> (1 <= i)%nat -> chain s !! i = Some b ->
  hash b' = hash b ->
  serializable (block_obj b') = true ->
  block_content b' <> block_content b ->
  (forall t t' : string,
     canonical_json (block_obj b) = Ok t ->
     canonical_json (block_obj b') = Ok t' -> ~ sha256_collision t t') ->
  fst (is_valid (tamper i b' s)) = Ok false.
Proof.
  intros Hs Hi Hb Hh Hser Hdiff Hnc.
  destruct (reachable_inv s Hs) as (_ & _ & Hpass).
  pose proof (lookup_lt_Some _ _ _ Hb) as Hlt.
  apply is_valid_false. exists i. simpl chain.
  split; [ rewrite length_insert; lia | ].
  split; [ | intros j Hj; apply passes_before_tamper; [ lia | apply Hpass; lia ] ].
  destruct (Hpass i (conj Hi Hlt)) as (cur & prev & Hc & Hp & Hl & Hcur).
  assert (cur = b) as -> by congruence.
  exists b', prev.
  split; [ apply list_lookup_insert_eq; exact Hlt | ].
  split; [ rewrite list_lookup_insert_ne by lia; exact Hp | ].
  destruct (string_dec (previous_hash b') (hash prev)) as [Hl' | Hl'];
    [ right | left; exact Hl' ].
  pose proof (compute_hash_render b) as Hrb.
  pose proof (compute_hash_render b') as Hrb'. rewrite Hser in Hrb'.
  destruct (serializable (block_obj b)) eqn:Hsb;
    [ | rewrite Hcur in Hrb; discriminate ].
  exists (sha256_hex (render false (block_content b'))).
  split; [ exact Hrb' | ].
  rewrite Hh. rewrite Hcur in Hrb. injection Hrb as Hrb. rewrite Hrb.
  intros Heq. apply (Hnc (render false (block_content b))
                         (render false (block_content b'))).
  - rewrite canonical_json_render, Hsb. reflexivity.
  - rewrite canonical_json_render, Hser. reflexivity.
  - split; [ | symmetry; exact Heq ].
    intros Hr. apply Hdiff. symmetry. apply render_inj.
    + unfold block_content. rewrite serializable_canon. exact Hsb.
    + unfold block_content. rewrite serializable_canon. exact Hser.
    + exact Hr.
Qed.

(** The recomputation raises on contents without a JSON text, and
    [is_valid] lets the exception through: a verdict on overwritten
    contents needs them to have a JSON text. *)
Remark is_valid_raises_on_unencodable :
  fst (is_valid (tamper 1 unencodable_block1 ledger2)) = Raise TypeError.
Proof. vm_compute. reflexivity. Qed.

Lemma forged_block1_digest :
  compute_hash forged_block1 <> compute_hash demo_block1.
Proof. vm_compute. intros H. discriminate H. Qed.

Lemma forged_block1_no_collision (t t' : string) :
  canonical_json (block_obj demo_block1) = Ok t ->
  canonical_json (block_obj forged_block1) = Ok t' ->
  ~ sha256_collision t t'.
Proof.
  intros Ht Ht' [_ Heq]. apply forged_block1_digest.
  unfold compute_hash, encode_utf8. rewrite Ht, Ht', Heq. reflexivity.
Qed.

Lemma C1_tamper_detected_witness :
  reachable ledger2 /\ (1 <= 1)%nat /\
  chain ledger2 !! 1%nat = Some demo_block1 /\
  hash forged_block1 = hash demo_block1 /\
  serializable (block_obj forged_block1) = true /\
  block_content forged_block1 <> block_content demo_block1 /\
  (forall t t' : string,
     canonical_json (block_obj demo_block1) = Ok t ->
     canonical_json (block_obj forged_block1) = Ok t' ->
     ~ sha256_collision t t') /\
  fst (is_valid (tamper 1 forged_block1 ledger2)) = Ok false.
Proof.
  assert (H1 : chain ledger2 !! 1%nat = Some demo_block1)
    by (rewrite ledger2_chain; reflexivity).
  assert (H2 : block_content forged_block1 <> block_content demo_block1)
    by (rewrite !block_content_eq; intros H; discriminate H).
  pose proof forged_block1_no_collision as H3.
  split; [ exact ledger2_reachable | ]. split; [ lia | ].
  split; [ exact H1 | ]. split; [ reflexivity | ]. split; [ reflexivity | ].
  split; [ exact H2 | ]. split; [ exact H3 | ].
  exact (C1_tamper_detected ledger2 1 demo_block1 forged_block1
           ledger2_reachable (le_n 1) H1 eq_refl eq_refl H2 H3).
Defined.

(** Instances of the properties on the demo ledger. *)

Lemma C2_is_valid_walk_witness :
  Forall (fun b => serializable (block_obj b) = true) (chain ledger2) /\
  (exists r : bool, fst (is_valid ledger2) = Ok r) /\
  snd (is_valid ledger2) = ledger2.
Proof.
  assert (H : Forall (fun b => serializable (block_obj b) = true) (chain ledger2))
    by (rewrite ledger2_chain; repeat constructor).
  split; [ exact H | ].
  destruct (C2_is_valid_walk ledger2) as (_ & _ & Htotal & Hpure & _).
  split; [ exact (Htotal H) | exact Hpure ].
Defined.

Lemma payload_ab_keys : NoDup (map fst payload_ab).
Proof.
  apply NoDup_cons. split; [ | apply NoDup_singleton ].
  intros H. apply list_elem_of_In in H. destruct H as [H | []]. discriminate H.
Qed.

Lemma payload_ab_ba : Permutation payload_ab payload_ba.
Proof. apply perm_swap. Qed.

Lemma C7_key_order_independent_witness :
  NoDup (map fst payload_ab) /\ Permutation payload_ab payload_ba /\
  canonical_json (PDict payload_ab) = canonical_json (PDict payload_ba) /\
  compute_hash (block_with_payload payload_ab) =
  compute_hash (block_with_payload payload_ba).
Proof.
  split; [ exact payload_ab_keys | ]. split; [ exact payload_ab_ba | ].
  destruct C7_key_order_independent as [Hp Hb].
  split; [ exact (Hp _ _ payload_ab_keys payload_ab_ba) | ].
  apply Hb; try reflexivity.
  constructor; [ | constructor ].
  exists [("event_type", PStr "BID_SUBMITTED"); ("actor_role", PStr "VENDOR");
          ("actor_id", PStr "VENDOR_ACME")],
         [("timestamp_utc", PStr "2025-01-01T00:00:02+00:00")],
         payload_ab, payload_ba.
  split; [ reflexivity | ]. split; [ reflexivity | ].
  split; [ exact payload_ab_keys | exact payload_ab_ba ].
Defined.

Lemma C6_digest_inputs_witness :
  index demo_block1 = index demo_block1_nonce /\
  canonical_json (block_obj demo_block1) <>
  canonical_json (block_obj demo_block1_nonce) /\
  compute_hash (mkBlock (index demo_block1) (timestamp_utc demo_block1)
                        (previous_hash demo_block1) (events demo_block1)
                        (nonce demo_block1) "") =
  compute_hash demo_block1.
Proof.
  split; [ reflexivity | ].
  destruct C6_digest_inputs as (_ & Hhash & _ & Hfields & _).
  split; [ | apply (Hhash demo_block1 "") ].
  intros Heq.
  destruct (canonical_json (block_obj demo_block1)) as [text | e] eqn:H1.
  - destruct (Hfields demo_block1 demo_block1_nonce text H1 (eq_sym Heq))
      as (_ & _ & _ & Hn & _).
    discriminate Hn.
  - rewrite canonical_json_render in H1. discriminate H1.
Defined.


Lemma C9_genesis_and_indices_witness :
  reachable ledger2 /\ chain ledger2 <> [] /\
  (forall (i : nat) (b : Block),
     chain ledger2 !! i = Some b -> index b = Z.of_nat i).
Proof.
  split; [ exact ledger2_reachable | ].
  exact (proj2 C9_genesis_and_indices ledger2 ledger2_reachable).
Defined.

Lemma C10_genesis_content_unchecked_witness :
  chain (tamper 0 forged_genesis ledger2) = forged_genesis :: [demo_block1] /\
  chain ledger2 = demo_genesis :: [demo_block1] /\
  hash forged_genesis = hash demo_genesis /\
  fst (is_valid (tamper 0 forged_genesis ledger2)) = fst (is_valid ledger2).
Proof.
  assert (H1 : chain (tamper 0 forged_genesis ledger2) =
               forged_genesis :: [demo_block1])
    by (change (chain (tamper 0 forged_genesis ledger2))
          with (<[0%nat := forged_genesis]> (chain ledger2));
        rewrite ledger2_chain; reflexivity).
  split; [ exact H1 | ]. split; [ exact ledger2_chain | ].
  split; [ reflexivity | ].
  exact (proj1 C10_genesis_content_unchecked _ _ _ _ _ H1 ledger2_chain eq_refl).
Defined.

(** * Further properties of the ledger *)

(** The loop over two ranges in a row. *)
Lemma loop_app (c : list Block) (r1 r2 : list nat) :
  is_valid_loop c (r1 ++ r2) =
  match is_valid_loop c r1 with
  | Ok true => is_valid_loop c r2
  | other => other
  end.
Proof.
  induction r1 as [ | i r1 IH ]; [ reflexivity | ].
  simpl. destruct (c !! i) as [cur | ]; [ | reflexivity ].
  destruct (c !! (i - 1)%nat) as [prev | ]; [ | reflexivity ].
  destruct (negb _); [ reflexivity | ].
  destruct (compute_hash cur) as [h | e]; [ | reflexivity ].
  destruct (negb _); [ reflexivity | exact IH ].
Qed.

(** The loop reads the blocks at the indices of its range and the ones
    just before them. *)
Lemma loop_ext (c1 c2 : list Block) (range : list nat) :
  Forall (fun i => c1 !! i = c2 !! i /\ c1 !! (i - 1)%nat = c2 !! (i - 1)%nat)
         range ->
  is_valid_loop c1 range = is_valid_loop c2 range.
Proof.
  induction 1 as [ | i range [Hi Hp] _ IH ]; [ reflexivity | ].
  simpl. rewrite Hi, Hp, IH. reflexivity.
Qed.

Lemma add_block_empty_chain (evs : list Event) (s : state) :
  chain s = [] -> add_block evs s = (Raise IndexError, s).
Proof. destruct s as [c k n]. simpl. intros ->. reflexivity. Qed.

(** What [add_block] leaves of the chain: the chain itself, or the chain
    and one more block. *)
Lemma add_block_chain (evs : list Event) (s : state) :
  chain (snd (add_block evs s)) = chain s \/
  exists b : Block,
    chain s <> [] /\ fst (add_block evs s) = Ok b /\
    chain (snd (add_block evs s)) = chain s ++ [b] /\
    (exists tip, last (chain s) = Some tip /\ previous_hash b = hash tip) /\
    index b = Z.of_nat (length (chain s)) /\ nonce b = 0 /\
    compute_hash b = Ok (hash b).
Proof.
  destruct (chain s) as [ | g rest ] eqn:Hc.
  - left. rewrite (add_block_empty_chain evs s Hc). exact Hc.
  - assert (Hne : chain s <> []) by (rewrite Hc; discriminate).
    destruct (add_block_run evs s Hne)
      as (tip & b & n & Hlast & Hi & Hl & _ & Hn & Hh & Hrun).
    rewrite Hrun, Hc in *.
    destruct (forallb event_accepted evs); simpl; [ right | left; reflexivity ].
    exists b. split; [ discriminate | ]. split; [ reflexivity | ].
    split; [ reflexivity | ]. split; [ exists tip; auto | ].
    split; [ exact Hi | ]. split; [ exact Hn | apply Hh; reflexivity ].
Qed.

(** X1: the ledger is append-only.  Whatever the batch and whether the call
    returns or raises, [add_block] keeps every stored block where it is:
    the chain before the call is a prefix of the chain after it, also
    after any number of calls. *)
Theorem add_block_append_only (s : state) :
  (forall evs : list Event,
     chain s `prefix_of` chain (snd (add_block evs s))) /\
  (forall batches : list (list Event),
     chain s `prefix_of` chain (appends batches s)).
Proof.
  assert (H1 : forall (s : state) (evs : list Event),
             chain s `prefix_of` chain (snd (add_block evs s))).
  { intros s' evs. destruct (add_block_chain evs s') as [-> | (b & _ & _ & -> & _)].
    - reflexivity.
    - apply prefix_app_r. reflexivity. }
  split; [ apply H1 | ].
  intros batches. revert s.
  induction batches as [ | evs rest IH ]; intros s; simpl; [ reflexivity | ].
  etransitivity; [ apply H1 | apply IH ].
Qed.

(** X2: [add_block] never changes the verdict of [is_valid].  A valid
    ledger stays valid, an invalid one stays invalid (a block that fails a
    check keeps failing it however many blocks are appended), and a chain
    on which [is_valid] raises keeps raising. *)
Theorem add_block_keeps_verdict (s : state) (evs : list Event) :
  fst (is_valid (snd (add_block evs s))) = fst (is_valid s).
Proof.
  rewrite !is_valid_run. simpl fst.
  destruct (add_block_chain evs s)
    as [-> | (b & Hne & _ & -> & (tip & Hlast & Hl) & _ & _ & Hh)];
    [ reflexivity | ].
  rewrite length_app. simpl length.
  replace (length (chain s) + 1 - 1)%nat with (S (length (chain s) - 1))
    by (destruct (chain s); [ contradiction | simpl; lia ]).
  rewrite seq_S, loop_app.
  assert (Hsame : is_valid_loop (chain s ++ [b]) (seq 1 (length (chain s) - 1)) =
                  is_valid_loop (chain s) (seq 1 (length (chain s) - 1))).
  { apply loop_ext. apply List.Forall_forall. intros i Hi. apply in_seq in Hi.
    split; apply lookup_app_l; lia. }
  rewrite Hsame.
  destruct (is_valid_loop (chain s) _) as [[ | ] | e]; try reflexivity.
  replace (1 + (length (chain s) - 1))%nat with (length (chain s))
    by (destruct (chain s); [ contradiction | simpl; lia ]).
  destruct (loop_turn (chain s ++ [b]) (length (chain s)))
    as [[_ Hr] | [[Hf _] | (Hnp & _)]].
  - rewrite Hr. reflexivity.
  - exfalso. apply (passes_not_fails (chain s ++ [b]) (length (chain s)));
      [ | exact Hf ].
    exists b, tip. split; [ apply list_lookup_middle; reflexivity | ].
    split; [ | auto ]. apply lookup_app_l_Some.
    rewrite last_lookup in Hlast. rewrite Nat.sub_1_r. exact Hlast.
  - exfalso. apply Hnp. exists b, tip.
    split; [ apply list_lookup_middle; reflexivity | ].
    split; [ | auto ]. apply lookup_app_l_Some.
    rewrite last_lookup in Hlast. rewrite Nat.sub_1_r. exact Hlast.
Qed.

(** X3: overwriting a stored [hash].  In a state of the ledger, give a
    stored block another [hash] and leave the rest as it is: [is_valid]
    returns [False], except when the block is the genesis block of a
    chain that holds nothing else, where it returns [True].  No property
    of SHA-256 is needed: the recomputed digest is the old [hash]. *)
Theorem hash_overwrite_verdict (s : state) (i : nat) (b : Block) (h : string) :
  reachable s -> chain s !! i = Some b -> h <> hash b ->
  fst (is_valid (tamper i (set_hash h b) s)) =
  Ok (Nat.eqb (length (chain s)) 1).
Proof.
  intros Hs Hb Hh.
  destruct (reachable_inv s Hs) as (_ & _ & Hpass).
  pose proof (lookup_lt_Some _ _ _ Hb) as Hlt.
  destruct (Nat.eqb_spec (length (chain s)) 1) as [H1 | H1].
  - apply is_valid_true. simpl chain. rewrite length_insert. intros j Hj. lia.
  - apply is_valid_false. simpl chain. rewrite length_insert.
    destruct i as [ | i ].
    + exists 1%nat. split; [ lia | ]. split; [ | intros j Hj; lia ].
      destruct (Hpass 1%nat ltac:(lia)) as (cur & prev & Hc & Hp & Hl & _).
      simpl in Hp. assert (prev = b) as -> by congruence.
      exists cur, (set_hash h b).
      split; [ rewrite list_lookup_insert_ne by lia; exact Hc | ].
      split; [ apply list_lookup_insert_eq; exact Hlt | ].
      left. simpl. congruence.
    + exists (S i). split; [ lia | ].
      split; [ | intros j Hj; apply passes_before_tamper;
                 [ lia | apply Hpass; lia ] ].
      destruct (Hpass (S i) ltac:(lia)) as (cur & prev & Hc & Hp & Hl & Hcur).
      assert (cur = b) as -> by congruence.
      exists (set_hash h b), prev.
      split; [ apply list_lookup_insert_eq; exact Hlt | ].
      split; [ rewrite list_lookup_insert_ne by lia; exact Hp | ].
      right. exists (hash b). split; [ exact Hcur | ].
      simpl. congruence.
Qed.

Lemma hash_overwrite_verdict_witness :
  reachable ledger2 /\ chain ledger2 !! 0%nat = Some demo_genesis /\
  zeros64 <> hash demo_genesis /\
  fst (is_valid (tamper 0 (set_hash zeros64 demo_genesis) ledger2)) = Ok false.
Proof.
  assert (H1 : chain ledger2 !! 0%nat = Some demo_genesis)
    by (rewrite ledger2_chain; reflexivity).
  assert (H2 : zeros64 <> hash demo_genesis) by (intros H; discriminate H).
  split; [ exact ledger2_reachable | ]. split; [ exact H1 | ].
  split; [ exact H2 | ].
  pose proof (hash_overwrite_verdict ledger2 0 demo_genesis zeros64
                ledger2_reachable H1 H2) as H.
  rewrite ledger2_chain in H. exact H.
Defined.

(** X4: dropping the most recent blocks goes unnoticed.  When [is_valid]
    returns [True], it also does after the chain is cut at any position. *)
Theorem truncation_undetected (s : state) (n : nat) :
  fst (is_valid s) = Ok true -> fst (is_valid (truncate n s)) = Ok true.
Proof.
  rewrite !is_valid_true. simpl chain. intros H i Hi.
  rewrite length_take in Hi.
  destruct (H i ltac:(lia)) as (cur & prev & Hc & Hp & Hrest).
  exists cur, prev.
  split; [ apply lookup_take_Some; split; [ exact Hc | lia ] | ].
  split; [ apply lookup_take_Some; split; [ exact Hp | lia ] | exact Hrest ].
Qed.

Lemma truncation_undetected_witness :
  fst (is_valid ledger2) = Ok true /\
  chain (truncate 1 ledger2) = [demo_genesis] /\
  fst (is_valid (truncate 1 ledger2)) = Ok true.
Proof.
  pose proof (reachable_valid ledger2 ledger2_reachable) as H.
  split; [ exact H | ].
  split; [ change (chain (truncate 1 ledger2)) with (take 1 (chain ledger2));
           rewrite ledger2_chain; reflexivity | ].
  exact (truncation_undetected ledger2 1 H).
Defined.

(** X5: the tip can be rewritten.  When [is_valid] returns [True], replace
    the last block (not the genesis block) by any block that names the
    [hash] of the block before it and stores its own digest: [is_valid]
    still returns [True].  Neither the index nor the timestamp nor the
    events of the new block are looked at. *)
Theorem resealed_tip_undetected (s : state) (prev b' : Block) :
  fst (is_valid s) = Ok true ->
  (2 <= length (chain s))%nat ->
  chain s !! (length (chain s) - 2)%nat = Some prev ->
  previous_hash b' = hash prev ->
  compute_hash b' = Ok (hash b') ->
  fst (is_valid (tamper (length (chain s) - 1) b' s)) = Ok true.
Proof.
  rewrite !is_valid_true. simpl chain. intros H Hlen Hprev Hl Hh i Hi.
  rewrite length_insert in Hi.
  destruct (Nat.eq_dec i (length (chain s) - 1)%nat) as [-> | Hne].
  - exists b', prev.
    split; [ apply list_lookup_insert_eq; lia | ].
    split; [ | auto ]. rewrite list_lookup_insert_ne by lia.
    replace (length (chain s) - 1 - 1)%nat with (length (chain s) - 2)%nat by lia.
    exact Hprev.
  - apply passes_before_tamper; [ lia | apply H; lia ].
Qed.

Lemma resealed_block_digest : compute_hash resealed_block = Ok (hash resealed_block).
Proof. vm_compute. reflexivity. Qed.

Lemma resealed_tip_undetected_witness :
  fst (is_valid ledger2) = Ok true /\ (2 <= length (chain ledger2))%nat /\
  chain ledger2 !! (length (chain ledger2) - 2)%nat = Some demo_genesis /\
  previous_hash resealed_block = hash demo_genesis /\
  compute_hash resealed_block = Ok (hash resealed_block) /\
  fst (is_valid (tamper (length (chain ledger2) - 1) resealed_block ledger2)) =
  Ok true.
Proof.
  pose proof (reachable_valid ledger2 ledger2_reachable) as H1.
  assert (H2 : (2 <= length (chain ledger2))%nat)
    by (rewrite ledger2_chain; simpl; lia).
  assert (H3 : chain ledger2 !! (length (chain ledger2) - 2)%nat =
               Some demo_genesis)
    by (rewrite ledger2_chain; reflexivity).
  split; [ exact H1 | ]. split; [ exact H2 | ]. split; [ exact H3 | ].
  split; [ reflexivity | ]. split; [ exact resealed_block_digest | ].
  exact (resealed_tip_undetected ledger2 demo_genesis resealed_block
           H1 H2 H3 eq_refl resealed_block_digest).
Defined.

(** X6: the empty chain.  On a [Blockchain] whose chain holds no block,
    [is_valid] returns [True] and [add_block] raises [IndexError] on
    reading the tip, whatever the batch, leaving the state as it was. *)
Theorem empty_chain_behaviour (s : state) (evs : list Event) :
  chain s = [] ->
  fst (is_valid s) = Ok true /\
  add_block evs s = (Raise IndexError, s).
Proof.
  intros Hc. split; [ | apply add_block_empty_chain, Hc ].
  rewrite is_valid_run, Hc. reflexivity.
Qed.

Lemma empty_chain_behaviour_witness :
  chain (mkState [] demo_clock 0) = [] /\
  fst (is_valid (mkState [] demo_clock 0)) = Ok true /\
  add_block [demo_event] (mkState [] demo_clock 0) =
  (Raise IndexError, mkState [] demo_clock 0).
Proof.
  split; [ reflexivity | ].
  exact (empty_chain_behaviour (mkState [] demo_clock 0) [demo_event] eq_refl).
Defined.

(** * The format of the stored digests *)

Lemma list_ascii_sapp (s1 s2 : string) :
  list_ascii_of_string (s1 +:+ s2) =
  list_ascii_of_string s1 ++ list_ascii_of_string s2.
Proof.
  induction s1 as [ | c s1 IH ]; [ reflexivity | ].
  rewrite sapp_cons. simpl. rewrite IH. reflexivity.
Qed.

Lemma hexdigit_is_hex (x : Z) :
  0 <= x < 16 -> is_hex_lower (SHA256.hexdigit x) = true.
Proof.
  intros Hx.
  assert (H : x = 0 \/ x = 1 \/ x = 2 \/ x = 3 \/ x = 4 \/ x = 5 \/ x = 6 \/
              x = 7 \/ x = 8 \/ x = 9 \/ x = 10 \/ x = 11 \/ x = 12 \/
              x = 13 \/ x = 14 \/ x = 15) by lia.
  repeat (destruct H as [-> | H]; [ reflexivity | ]). subst x. reflexivity.
Qed.

Lemma hex8_is_hex (w : Z) :
  forallb is_hex_lower (list_ascii_of_string (SHA256.hex8 w)) = true.
Proof.
  unfold SHA256.hex8. simpl.
  rewrite !hexdigit_is_hex by (apply Z.mod_pos_bound; lia). reflexivity.
Qed.

Lemma sha256_hex_is_hex (data : string) :
  forallb is_hex_lower (list_ascii_of_string (sha256_hex data)) = true.
Proof.
  unfold sha256_hex, SHA256.hexdigest.
  rewrite !list_ascii_sapp, !forallb_app, !hex8_is_hex. reflexivity.
Qed.

Lemma compute_hash_format (b : Block) (h : string) :
  compute_hash b = Ok h ->
  String.length h = 64%nat /\
  forallb is_hex_lower (list_ascii_of_string h) = true.
Proof.
  unfold compute_hash. destruct (canonical_json (block_obj b)); [ | discriminate ].
  intros [= <-]. split; [ apply sha256_hex_length | apply sha256_hex_is_hex ].
Qed.

(** X7: what the blocks of a ledger look like.  In every state of the
    ledger, each stored [hash] and [previous_hash] is a string of 64
    lower-case hexadecimal digits, the [previous_hash] of block 0 being
    all zeros and that of every later block the [hash] stored in the block
    before it; every [nonce] is 0. *)
Theorem stored_block_format (s : state) (i : nat) (b : Block) :
  reachable s -> chain s !! i = Some b ->
  String.length (hash b) = 64%nat /\
  forallb is_hex_lower (list_ascii_of_string (hash b)) = true /\
  String.length (previous_hash b) = 64%nat /\
  forallb is_hex_lower (list_ascii_of_string (previous_hash b)) = true /\
  nonce b = 0 /\
  match i with
  | O => previous_hash b = str_mul "0" 64
  | S j => exists prev, chain s !! j = Some prev /\ previous_hash b = hash prev
  end.
Proof.
  intros Hs. revert i b.
  induction Hs as [ s0 | s evs Hs IH ]; intros i b Hb.
  - destruct (init_run s0) as (g & Hrun & _ & _ & Hp & _ & Hn & Hh).
    rewrite Hrun in Hb. simpl in Hb.
    destruct i as [ | i ]; [ | discriminate ]. injection Hb as <-.
    destruct (compute_hash_format g _ Hh) as [Hlen Hhex].
    rewrite Hp. repeat (split; [ assumption || reflexivity | ]). reflexivity.
  - destruct (add_block_chain evs s)
      as [Hsame | (nb & Hne & _ & Happ & (tip & Hlast & Hl) & _ & Hn & Hh)].
    + rewrite Hsame in Hb |- *. apply IH, Hb.
    + rewrite Happ in Hb. apply lookup_app_Some in Hb as [Hb | [Hlen Hb]].
      * destruct (IH i b Hb) as (H1 & H2 & H3 & H4 & H5 & H6).
        repeat (split; [ assumption | ]).
        destruct i as [ | j ]; [ exact H6 | ].
        destruct H6 as (prev & Hprev & Hlink). exists prev.
        rewrite Happ. split; [ apply lookup_app_l_Some, Hprev | exact Hlink ].
      * apply list_lookup_singleton_Some in Hb as [Hz <-].
        destruct (compute_hash_format nb _ Hh) as [Hlen' Hhex].
        rewrite last_lookup in Hlast.
        destruct (IH _ tip Hlast) as (T1 & T2 & _).
        rewrite Hl. repeat (split; [ assumption | ]).
        destruct i as [ | j ].
        -- exfalso. destruct (chain s); [ contradiction | simpl in *; lia ].
        -- exists tip. rewrite Happ. split; [ | reflexivity ].
           apply lookup_app_l_Some.
           replace j with (pred (length (chain s))) by lia. exact Hlast.
Qed.

Lemma stored_block_format_witness :
  reachable ledger2 /\ chain ledger2 !! 1%nat = Some demo_block1 /\
  String.length (hash demo_block1) = 64%nat /\
  forallb is_hex_lower (list_ascii_of_string (hash demo_block1)) = true /\
  String.length (previous_hash demo_block1) = 64%nat /\
  forallb is_hex_lower (list_ascii_of_string (previous_hash demo_block1)) = true /\
  nonce demo_block1 = 0 /\
  exists prev, chain ledger2 !! 0%nat = Some prev /\
               previous_hash demo_block1 = hash prev.
Proof.
  assert (H1 : chain ledger2 !! 1%nat = Some demo_block1)
    by (rewrite ledger2_chain; reflexivity).
  split; [ exact ledger2_reachable | ]. split; [ exact H1 | ].
  exact (stored_block_format ledger2 1 demo_block1 ledger2_reachable H1).
Defined.

(** * What [add_block] stores *)

Lemma to_dict_exact (e : Event) (s : state) :
  event_ok e = true ->
  to_dict e s =
  (Ok (dict_of e (if String.eqb (ev_timestamp_utc e) ""
                  then clock s (ticks s) else ev_timestamp_utc e)),
   mkState (chain s) (clock s)
           (if String.eqb (ev_timestamp_utc e) ""
            then S (ticks s) else ticks s)).
Proof.
  intros Hok. destruct (serializable_as_dicts _ Hok) as [Hc Hd].
  destruct s as [c k n]. unfold to_dict, dict_of, bind, lift.
  rewrite _asdict_inner_spec, Hc, Hd.
  destruct (String.eqb (ev_timestamp_utc e) ""); reflexivity.
Qed.

Lemma unstamped_cons (e : Event) (evs : list Event) :
  length (unstamped (e :: evs)) =
  ((if String.eqb (ev_timestamp_utc e) "" then 1 else 0) +
   length (unstamped evs))%nat.
Proof.
  unfold unstamped. simpl.
  destruct (String.eqb (ev_timestamp_utc e) ""); reflexivity.
Qed.

Lemma forM_to_dict_exact (evs : list Event) (s : state) :
  forallb event_ok evs = true ->
  exists dicts : list pydict,
    forM to_dict evs s =
      (Ok dicts,
       mkState (chain s) (clock s) (ticks s + length (unstamped evs))) /\
    length dicts = length evs /\
    forall (i : nat) (e : Event),
      evs !! i = Some e ->
      dicts !! i = Some (dict_of e (stamp_of (clock s) (ticks s) evs i e)).
Proof.
  revert s. induction evs as [ | e evs IH ]; intros s Hok.
  - exists []. destruct s as [c k n]. simpl.
    rewrite Nat.add_0_r. split; [ reflexivity | ].
    split; [ reflexivity | ]. intros i e H. discriminate H.
  - cbn [forallb] in Hok. apply andb_true_iff in Hok as [Hoke Hok].
    destruct (IH (mkState (chain s) (clock s)
                          (if String.eqb (ev_timestamp_utc e) ""
                           then S (ticks s) else ticks s)) Hok)
      as (ds & Hrun & Hlen & Hds).
    simpl chain in Hrun. simpl clock in Hrun, Hds. simpl ticks in Hrun, Hds.
    exists (dict_of e (if String.eqb (ev_timestamp_utc e) ""
                       then clock s (ticks s) else ev_timestamp_utc e) :: ds).
    split; [ | split ].
    + simpl forM. unfold bind at 1. rewrite (to_dict_exact e s Hoke).
      unfold bind at 1. rewrite Hrun. unfold ret.
      rewrite unstamped_cons.
      destruct (String.eqb (ev_timestamp_utc e) ""); simpl;
        [ rewrite Nat.add_succ_r | ]; reflexivity.
    + simpl. rewrite Hlen. reflexivity.
    + intros [ | i ] e' He'; simpl in He'.
      * injection He' as <-. simpl. unfold stamp_of. simpl take.
        unfold unstamped. simpl. rewrite Nat.add_0_r. reflexivity.
      * simpl. rewrite (Hds i e' He'). unfold stamp_of. simpl take.
        rewrite unstamped_cons.
        destruct (String.eqb (ev_timestamp_utc e') ""); [ | reflexivity ].
        destruct (String.eqb (ev_timestamp_utc e) ""); simpl;
          [ rewrite Nat.add_succ_r | ]; reflexivity.
Qed.

(** X8: what [add_block] stores of a batch.  On a ledger with its genesis
    block and a batch whose payloads have a JSON text, the returned block
    holds one dict per event, in the order of the batch, with the fields
    of the event; an event that came with a timestamp keeps it, the
    others get successive readings of the clock in batch order, and the
    block is stamped with the reading after those. *)
Theorem add_block_stores_batch (s : state) (evs : list Event) :
  chain s <> [] -> forallb event_ok evs = true ->
  exists b : Block,
    fst (add_block evs s) = Ok b /\
    length (events b) = length evs /\
    (forall (i : nat) (e : Event),
       evs !! i = Some e ->
       events b !! i =
       Some (dict_of e (stamp_of (clock s) (ticks s) evs i e))) /\
    timestamp_utc b = clock s (ticks s + length (unstamped evs)) /\
    ticks (snd (add_block evs s)) = S (ticks s + length (unstamped evs)).
Proof.
  intros Hc Hok. destruct (last_lookup_nonempty _ Hc) as (prev & Hlast & _).
  destruct (forM_to_dict_exact evs s Hok) as (dicts & Hrun & Hlen & Hds).
  destruct (add_block_run evs s Hc)
    as (tip & b & n & _ & _ & _ & _ & _ & _ & Hrun').
  rewrite (events_ok_accepted evs Hok) in Hrun'.
  destruct s as [c k t]. simpl in *.
  unfold add_block in Hrun' |- *. revert Hrun'. run_monad.
  rewrite Hlast, Hrun.
  destruct (compute_hash _) as [h | e]; [ | discriminate ].
  intros _. eexists. split; [ reflexivity | ]. simpl.
  split; [ exact Hlen | ]. split; [ exact Hds | ]. split; reflexivity.
Qed.

Lemma add_block_stores_batch_witness :
  chain ledger1 <> [] /\ forallb event_ok demo_batch = true /\
  exists b : Block,
    fst (add_block demo_batch ledger1) = Ok b /\
    length (events b) = length demo_batch /\
    (forall (i : nat) (e : Event),
       demo_batch !! i = Some e ->
       events b !! i =
       Some (dict_of e (stamp_of (clock ledger1) (ticks ledger1)
                                 demo_batch i e))) /\
    timestamp_utc b =
      clock ledger1 (ticks ledger1 + length (unstamped demo_batch)) /\
    ticks (snd (add_block demo_batch ledger1)) =
      S (ticks ledger1 + length (unstamped demo_batch)).
Proof.
  assert (H1 : chain ledger1 <> []) by (rewrite ledger1_chain; discriminate).
  split; [ exact H1 | ]. split; [ reflexivity | ].
  exact (add_block_stores_batch ledger1 demo_batch H1 eq_refl).
Defined.

(** * One text, one value *)

(** X9: the canonical encoding tells values apart.  Two values that
    [json.dumps] accepts get the same [canonical_json] text exactly when
    they are the same up to the insertion order of the keys of their
    dicts, at any depth. *)
Theorem canonical_json_same_text (v1 v2 : pyval) :
  serializable v1 = true -> serializable v2 = true ->
  (canonical_json v1 = canonical_json v2 <-> canon v1 = canon v2).
Proof.
  intros S1 S2. split; [ | apply canonical_json_canon ].
  intros H. pose proof (canonical_json_render v1) as H1. rewrite S1 in H1.
  apply (canonical_json_inj v1 v2 _ H1). rewrite <- H. exact H1.
Qed.

Lemma canonical_json_same_text_witness :
  serializable (PList [PDict payload_ab; PInt 1]) = true /\
  serializable (PList [PDict payload_ba; PInt 1]) = true /\
  canon (PList [PDict payload_ab; PInt 1]) =
  canon (PList [PDict payload_ba; PInt 1]) /\
  canonical_json (PList [PDict payload_ab; PInt 1]) =
  canonical_json (PList [PDict payload_ba; PInt 1]).
Proof.
  split; [ reflexivity | ]. split; [ reflexivity | ].
  assert (H : canon (PList [PDict payload_ab; PInt 1]) =
              canon (PList [PDict payload_ba; PInt 1])) by reflexivity.
  split; [ exact H | ].
  exact (proj2 (canonical_json_same_text
                  (PList [PDict payload_ab; PInt 1])
                  (PList [PDict payload_ba; PInt 1]) eq_refl eq_refl) H).
Defined.

(** * The rules *)

(** Name the value of the first [let] of the goal. *)
Ltac name_let t :=
  match goal with
  | |- context G [let x := ?v in @?body x] =>
      pose (t := v);
      let g := context G [body t] in
      change g; cbv beta
  end.

(** The chain of [if]s of [evaluate_bid_rules] is the rules of
    [fired_rules] applied in turn. *)
Lemma evaluate_bid_rules_fired (median : list float -> float)
    (sol : Solicitation) (bid : Bid) (v : Vendor) (prices : list float) :
  evaluate_bid_rules median sol bid v prices =
  let t := fold_left (fun t rule => fire rule t)
                     (fired_rules median sol bid v prices)
                     (mkTally [] 0 true) in
  mkRiskResult (t_pass t) (Z.max 0 (Z.min 100 (t_risk t))) (t_reasons t).
Proof.
  assert (E8 : forall t,
             fire (match prices with [] => false | _ :: _ => true end &&
                   negb (PrimFloat.ltb (price_total bid)
                           (PrimFloat.mul 0x1.6666666666666p-1%float
                                          (median prices))) &&
                   PrimFloat.ltb (PrimFloat.mul 1.5%float (median prices))
                                 (price_total bid), false,
                   "Price is unusually high (>150% of median).", 10)
               (fire (match prices with [] => false | _ :: _ => true end &&
                      PrimFloat.ltb (price_total bid)
                        (PrimFloat.mul 0x1.6666666666666p-1%float
                                       (median prices)), false,
                      "Price is unusually low (<70% of median) — potential underbid risk.",
                      20) t) =
             match prices with
             | [] => t
             | _ :: _ =>
                 if PrimFloat.ltb (price_total bid)
                      (PrimFloat.mul 0x1.6666666666666p-1%float
                                     (median prices))
                 then hit false
                        "Price is unusually low (<70% of median) — potential underbid risk."
                        20 t
                 else if PrimFloat.ltb (PrimFloat.mul 1.5%float (median prices))
                                       (price_total bid)
                 then hit false "Price is unusually high (>150% of median)."
                          10 t
                 else t
             end).
  { intros t. unfold fire. simpl fst. simpl snd.
    destruct prices; [ reflexivity | ]. simpl andb.
    destruct (PrimFloat.ltb (price_total bid) _); simpl negb; simpl andb;
      [ reflexivity | ].
    destruct (PrimFloat.ltb _ (price_total bid)); reflexivity. }
  assert (E7 : forall t,
             fire (negb (delivery_days bid <=? 3) && (60 <? delivery_days bid),
                   false, "Very long delivery timeline (>60 days).", 10)
               (fire (delivery_days bid <=? 3, false,
                      "Very aggressive delivery timeline (<=3 days).", 15) t) =
             if delivery_days bid <=? 3
             then hit false "Very aggressive delivery timeline (<=3 days)." 15 t
             else if 60 <? delivery_days bid
             then hit false "Very long delivery timeline (>60 days)." 10 t
             else t).
  { intros t. unfold fire. simpl fst. simpl snd.
    destruct (delivery_days bid <=? 3); simpl negb; simpl andb;
      [ reflexivity | ].
    destruct (60 <? delivery_days bid); reflexivity. }
  assert (E6 : forall t,
             fire (negb (past_performance_score v <? 60) &&
                   (past_performance_score v <? 75),
                   false, "Moderate past performance score (60-74).", 10)
               (fire (past_performance_score v <? 60, false,
                      "Low past performance score (<60).", 25) t) =
             if past_performance_score v <? 60
             then hit false "Low past performance score (<60)." 25 t
             else if past_performance_score v <? 75
             then hit false "Moderate past performance score (60-74)." 10 t
             else t).
  { intros t. unfold fire. simpl fst. simpl snd.
    destruct (past_performance_score v <? 60); simpl negb; simpl andb;
      [ reflexivity | ].
    destruct (past_performance_score v <? 75); reflexivity. }
  cbv beta delta [evaluate_bid_rules].
  name_let t0. name_let t1. name_let t2. name_let t3. name_let t4.
  name_let t5. name_let t6. name_let t7. name_let t8.
  cbv beta zeta delta [fired_rules]. cbn [fold_left].
  rewrite E8, E7, E6. reflexivity.
Qed.

(** What a run of rules leaves in the three local variables. *)
Lemma fold_fire_reasons (rules : list (bool * bool * string * Z)) (t : tally) :
  t_reasons (fold_left (fun t rule => fire rule t) rules t) =
  t_reasons t ++
  map (fun rule => snd (fst rule))
      (List.filter (fun rule => fst (fst (fst rule))) rules).
Proof.
  revert t. induction rules as [| [[[c g] r] p] rules IH]; intros t; simpl.
  - now rewrite app_nil_r.
  - rewrite IH. unfold fire. simpl. destruct c; simpl.
    + now rewrite <- app_assoc.
    + reflexivity.
Qed.

Lemma fold_fire_risk (rules : list (bool * bool * string * Z)) (t : tally) :
  t_risk (fold_left (fun t rule => fire rule t) rules t) =
  t_risk t +
  fold_right Z.add 0
    (map snd (List.filter (fun rule => fst (fst (fst rule))) rules)).
Proof.
  revert t. induction rules as [| [[[c g] r] p] rules IH]; intros t; simpl.
  - lia.
  - rewrite IH. unfold fire. simpl. destruct c; simpl; lia.
Qed.

Lemma fold_fire_pass (rules : list (bool * bool * string * Z)) (t : tally) :
  t_pass (fold_left (fun t rule => fire rule t) rules t) =
  t_pass t &&
  forallb (fun rule => negb (snd (fst (fst rule))))
          (List.filter (fun rule => fst (fst (fst rule))) rules).
Proof.
  revert t. induction rules as [| [[[c g] r] p] rules IH]; intros t; simpl.
  - now rewrite andb_true_r.
  - rewrite IH. unfold fire. simpl. destruct c; simpl; [ | reflexivity ].
    destruct g; simpl; [ now rewrite andb_false_r | reflexivity ].
Qed.

(** Every rule carries the points and the kind that [points_of] and
    [is_gate_reason] give to its reason. *)
Lemma fired_rules_table (median : list float -> float)
    (sol : Solicitation) (bid : Bid) (v : Vendor) (prices : list float) :
  map (fun rule => (snd (fst (fst rule)), snd (fst rule), snd rule))
      (fired_rules median sol bid v prices) = rule_table.
Proof. reflexivity. Qed.

Lemma rule_table_points :
  List.Forall (fun rule => points_of (snd (fst rule)) = snd rule /\
                           0 <= snd rule /\
                           is_gate_reason (snd (fst rule)) = fst (fst rule))
              rule_table.
Proof.
  unfold rule_table.
  repeat (constructor; [ split; [ reflexivity | split; [ simpl; lia | reflexivity ] ] | ]).
  constructor.
Qed.

Lemma filter_rules_table (rules : list (bool * bool * string * Z)) :
  List.Forall (fun rule => points_of (snd (fst rule)) = snd rule /\
                           0 <= snd rule /\
                           is_gate_reason (snd (fst rule)) = snd (fst (fst rule)))
    rules ->
  let on := List.filter (fun rule => fst (fst (fst rule))) rules in
  fold_right Z.add 0 (map snd on) =
    total_points (map (fun rule => snd (fst rule)) on) /\
  0 <= fold_right Z.add 0 (map snd on) /\
  forallb (fun rule => negb (snd (fst (fst rule)))) on =
    negb (existsb is_gate_reason (map (fun rule => snd (fst rule)) on)).
Proof.
  unfold total_points.
  induction 1 as [| [[[c g] r] p] rules (Hp & H0 & Hg) _ IH]; simpl.
  - repeat split; lia.
  - simpl in Hp, H0, Hg. destruct IH as (IH1 & IH2 & IH3).
    destruct c; simpl; [ | now repeat split ].
    rewrite Hp, Hg, IH3, negb_orb. repeat split; lia.
Qed.

Lemma fired_rules_sound (median : list float -> float)
    (sol : Solicitation) (bid : Bid) (v : Vendor) (prices : list float) :
  List.Forall (fun rule => points_of (snd (fst rule)) = snd rule /\
                           0 <= snd rule /\
                           is_gate_reason (snd (fst rule)) = snd (fst (fst rule)))
    (fired_rules median sol bid v prices).
Proof.
  pose proof rule_table_points as H.
  rewrite <- (fired_rules_table median sol bid v prices) in H.
  rewrite List.Forall_map in H. exact H.
Qed.

(** X10: the risk score is explained by the reasons: it is the sum of the
    points of the reported reasons, cut off at 100. *)
Theorem risk_score_explained (median : list float -> float)
    (sol : Solicitation) (bid : Bid) (v : Vendor) (prices : list float) :
  let r := evaluate_bid_rules median sol bid v prices in
  risk_score r = Z.min 100 (total_points (reasons r)).
Proof.
  rewrite evaluate_bid_rules_fired. cbv zeta. cbn [risk_score reasons].
  rewrite fold_fire_risk, fold_fire_reasons. cbn [t_risk t_reasons].
  rewrite app_nil_l.
  destruct (filter_rules_table _ (fired_rules_sound median sol bid v prices))
    as (E & H0 & _).
  rewrite <- E. lia.
Qed.

(** X11: a bid fails compliance exactly when one of the reasons reported
    is the reason of a hard gate, and this is decided by the four gates
    alone: matching solicitation, SAM registration, insurance, technical
    compliance. *)
Theorem compliance_explained (median : list float -> float)
    (sol : Solicitation) (bid : Bid) (v : Vendor) (prices : list float) :
  let r := evaluate_bid_rules median sol bid v prices in
  compliance_pass r = negb (existsb is_gate_reason (reasons r)) /\
  compliance_pass r = gates_pass sol bid v.
Proof.
  rewrite evaluate_bid_rules_fired. cbv zeta. cbn [compliance_pass reasons].
  rewrite fold_fire_pass, fold_fire_reasons. cbn [t_pass t_reasons].
  rewrite app_nil_l. split.
  - destruct (filter_rules_table _ (fired_rules_sound median sol bid v prices))
      as (_ & _ & E).
    exact E.
  - unfold gates_pass, fired_rules. cbv zeta.
    destruct (String.eqb (bid_solicitation_id bid) (solicitation_id sol)),
      (sam_registered v), (insurance_valid v), (technical_compliance bid);
      simpl;
      repeat match goal with
             | |- context [if ?c then _ else _] => destruct c; simpl
             end;
      reflexivity.
Qed.

(** The outcome of [evaluate_bid_rules] in closed form. *)
Lemma sum_fired (rules : list (bool * bool * string * Z)) :
  fold_right Z.add 0
    (map snd (List.filter (fun rule => fst (fst (fst rule))) rules)) =
  fold_right Z.add 0
    (map (fun rule : bool * bool * string * Z =>
            if fst (fst (fst rule)) then snd rule else 0) rules).
Proof.
  induction rules as [| [[[c g] r] p] rules IH]; simpl; [ reflexivity | ].
  destruct c; simpl; lia.
Qed.

Lemma evaluate_bid_rules_pass (median : list float -> float)
    (sol : Solicitation) (bid : Bid) (v : Vendor) (prices : list float) :
  compliance_pass (evaluate_bid_rules median sol bid v prices) =
  gates_pass sol bid v.
Proof.
  rewrite evaluate_bid_rules_fired. cbv zeta. cbn [compliance_pass].
  rewrite fold_fire_pass. cbn [t_pass].
  unfold gates_pass, fired_rules. cbv zeta.
  destruct (String.eqb (bid_solicitation_id bid) (solicitation_id sol)),
    (sam_registered v), (insurance_valid v), (technical_compliance bid);
    simpl;
    repeat match goal with
           | |- context [if ?c then _ else _] => destruct c; simpl
           end;
    reflexivity.
Qed.

Lemma evaluate_bid_rules_risk (median : list float -> float)
    (sol : Solicitation) (bid : Bid) (v : Vendor) (prices : list float) :
  exists soft : Z,
    0 <= soft <= 80 /\
    risk_score (evaluate_bid_rules median sol bid v prices) =
    Z.min 100
      ((if String.eqb (bid_solicitation_id bid) (solicitation_id sol)
        then 0 else 60) +
       (if sam_registered v then 0 else 50) +
       (if insurance_valid v then 0 else 40) +
       (if technical_compliance bid then 0 else 50) + soft).
Proof.
  rewrite evaluate_bid_rules_fired. cbv zeta. cbn [risk_score].
  rewrite fold_fire_risk, sum_fired. cbn [t_risk].
  unfold fired_rules. cbv zeta. cbn [map fold_right fst snd].
  set (naics_pts := if negb (str_in (naics sol) (naics_codes v))
                    then 20 else 0).
  set (perf := (if past_performance_score v <? 60 then 25 else 0) +
               ((if negb (past_performance_score v <? 60) &&
                    (past_performance_score v <? 75) then 10 else 0) + _)).
  match goal with
  | perf := _ + (_ + (?d1 + (?d2 + (?p1 + (?p2 + 0))))) |- _ =>
      assert (Hd : 0 <= d1 + d2 <= 15)
        by (destruct (delivery_days bid <=? 3), (60 <? delivery_days bid);
            simpl; lia);
      assert (Hp : 0 <= p1 + p2 <= 20)
        by (destruct prices; simpl; [ lia | ];
            destruct (PrimFloat.ltb (price_total bid) _),
              (PrimFloat.ltb _ (price_total bid)); simpl; lia);
      assert (Hperf : 0 <= perf - (d1 + d2) - (p1 + p2) <= 25)
        by (unfold perf;
            destruct (past_performance_score v <? 60),
              (past_performance_score v <? 75); simpl; lia);
      assert (Hn : 0 <= naics_pts <= 20)
        by (unfold naics_pts; destruct (negb _); lia);
      generalize dependent (d1 + d2); generalize dependent (p1 + p2)
  end.
  clearbody perf naics_pts. intros pp Hpp dd Hdd Hperf.
  exists (naics_pts + perf). split; [ lia | ].
  destruct (String.eqb (bid_solicitation_id bid) (solicitation_id sol)),
    (sam_registered v), (insurance_valid v), (technical_compliance bid);
    simpl; lia.
Qed.

(** * The order of prices *)

Ltac cmp_cases :=
  repeat match goal with
         | |- context [(?a ?= ?b)%Z] =>
             destruct (Z.compare_spec a b); simpl
         | |- context [PosDef.Pos.compare_cont Eq ?a ?b] =>
             change (PosDef.Pos.compare_cont Eq a b) with (Pos.compare a b);
             destruct (Pos.compare_spec a b); simpl
         end.

Lemma SFltb_neg_trans (a b c : spec_float) :
  SFeqb b b = true -> SFltb a c = true ->
  SFltb a b = true \/ SFltb b c = true.
Proof.
  unfold SFltb, SFeqb, SFcompare.
  destruct a as [sa | sa | | sa ma ea], b as [sb | sb | | sb mb eb],
    c as [sc | sc | | sc mc ec];
    try discriminate;
    repeat match goal with s : bool |- _ => destruct s end;
    try discriminate; auto;
    cmp_cases; intros; try discriminate; auto; try lia.
Qed.

Lemma SFltb_asym (a b : spec_float) :
  SFltb a b = true -> SFltb b a = false.
Proof.
  unfold SFltb, SFcompare.
  destruct a as [sa | sa | | sa ma ea], b as [sb | sb | | sb mb eb];
    try discriminate;
    repeat match goal with s : bool |- _ => destruct s end;
    try discriminate; auto;
    cmp_cases; intros; try discriminate; auto; try lia.
Qed.

(** A price that is a number lies below or above every other one. *)
Lemma ltb_neg_trans (x y z : float) :
  PrimFloat.is_nan y = false -> PrimFloat.ltb x z = true ->
  PrimFloat.ltb x y = true \/ PrimFloat.ltb y z = true.
Proof.
  unfold PrimFloat.is_nan. rewrite !FloatAxioms.ltb_spec, FloatAxioms.eqb_spec.
  intros H. apply SFltb_neg_trans. now destruct (SFeqb _ _).
Qed.

Lemma ltb_asym (x y : float) :
  PrimFloat.ltb x y = true -> PrimFloat.ltb y x = false.
Proof. rewrite !FloatAxioms.ltb_spec. apply SFltb_asym. Qed.

Lemma ltb_irrefl (x : float) : PrimFloat.ltb x x = false.
Proof.
  destruct (PrimFloat.ltb x x) eqn:E; [ | reflexivity ].
  pose proof (ltb_asym _ _ E). congruence.
Qed.

(** * The sort of [choose_winner] *)

Lemma insert_by_price_hd (x d : Bid * RiskResult) (l : list (Bid * RiskResult)) :
  hd d (insert_by_price x l) =
  match l with
  | [] => x
  | y :: _ =>
      if PrimFloat.ltb (price_total (fst y)) (price_total (fst x))
      then y else x
  end.
Proof. destruct l as [| y l]; simpl; [ reflexivity | ]. now destruct (PrimFloat.ltb _ _). Qed.

Lemma insert_by_price_cons (x : Bid * RiskResult) (l : list (Bid * RiskResult)) :
  exists y l', insert_by_price x l = y :: l'.
Proof.
  destruct l as [| y l]; simpl; [ eauto | ].
  destruct (PrimFloat.ltb _ _); eauto.
Qed.

(** The head of the sorted list is the first entry of lowest price: the
    entries before it cost more, the entries after it do not cost less. *)
Lemma sort_by_price_hd (l : list (Bid * RiskResult)) (d : Bid * RiskResult) :
  l <> [] ->
  (forall x, In x l -> PrimFloat.is_nan (price_total (fst x)) = false) ->
  exists pre w post,
    l = pre ++ w :: post /\
    hd d (sort_by_price l) = w /\
    (forall y, In y pre ->
       PrimFloat.ltb (price_total (fst w)) (price_total (fst y)) = true) /\
    (forall y, In y post ->
       PrimFloat.ltb (price_total (fst y)) (price_total (fst w)) = false).
Proof.
  induction l as [| x l IH]; [ congruence | ]. intros _ Hnan.
  destruct l as [| x' l'].
  - exists [], x, []. simpl. repeat split; intros y [].
  - destruct IH as (pre & w & post & El & Hhd & Hpre & Hpost);
      [ discriminate | intros y Hy; apply Hnan; now right | ].
    change (sort_by_price (x :: x' :: l'))
      with (insert_by_price x (sort_by_price (x' :: l'))).
    rewrite insert_by_price_hd.
    assert (Es : exists s, sort_by_price (x' :: l') = w :: s).
    { change (sort_by_price (x' :: l'))
        with (insert_by_price x' (sort_by_price l')) in Hhd |- *.
      destruct (insert_by_price_cons x' (sort_by_price l')) as (y & s & E).
      rewrite E in Hhd |- *. simpl in Hhd. subst y. eauto. }
    destruct Es as (s & Es). rewrite Es.
    destruct (PrimFloat.ltb (price_total (fst w)) (price_total (fst x))) eqn:Ewx.
    + exists (x :: pre), w, post. rewrite El. repeat split.
      * intros y [<- | Hy]; [ exact Ewx | now apply Hpre ].
      * exact Hpost.
    + exists [], x, (x' :: l'). repeat split; [ intros y [] | ].
      intros y Hy.
      destruct (PrimFloat.ltb (price_total (fst y)) (price_total (fst x)))
        eqn:Eyx; [ | reflexivity ].
      assert (Hw : PrimFloat.is_nan (price_total (fst w)) = false).
      { apply Hnan. right. rewrite El. apply in_or_app. right. now left. }
      destruct (ltb_neg_trans _ _ _ Hw Eyx) as [Hyw | Hwx];
        [ | congruence ].
      rewrite El in Hy. apply in_app_or in Hy.
      destruct Hy as [Hy | [<- | Hy]].
      * apply Hpre in Hy. apply ltb_asym in Hy. congruence.
      * rewrite ltb_irrefl in Hyw. discriminate.
      * apply Hpost in Hy. congruence.
Qed.

Lemma filter_app_cons_inv {A : Type} (P : A -> bool) (l a b : list A) (x : A) :
  List.filter P l = a ++ x :: b ->
  exists l1 l2, l = l1 ++ x :: l2 /\ List.filter P l1 = a /\
                List.filter P l2 = b /\ P x = true.
Proof.
  revert a. induction l as [| y l IH]; intros a E; simpl in E.
  - now destruct a.
  - destruct (P y) eqn:Ey.
    + destruct a as [| a0 a]; simpl in E; injection E as -> E.
      * exists [], l. repeat split; assumption.
      * destruct (IH _ E) as (l1 & l2 & -> & E1 & E2 & Ex).
        exists (a0 :: l1), l2. simpl. rewrite Ey, E1. now repeat split.
    + destruct (IH _ E) as (l1 & l2 & -> & E1 & E2 & Ex).
      exists (y :: l1), l2. simpl. rewrite Ey. now repeat split.
Qed.

(** * The loop of [choose_winner] *)

Lemma score_bids_known (median : list float -> float) (sol : Solicitation)
    (vendors : gmap string Vendor) (prices : list float) (bids : list Bid) :
  (forall b, In b bids -> exists v, vendors !! bid_vendor_id b = Some v) ->
  exists scored,
    score_bids median sol vendors prices bids = Returned scored /\
    Forall2 (scored_as median sol vendors prices) bids scored.
Proof.
  induction bids as [| b bids IH]; intros Hk; simpl.
  - exists []. split; [ reflexivity | constructor ].
  - destruct (Hk b (or_introl eq_refl)) as (v & Ev). rewrite Ev.
    destruct IH as (scored & -> & HF); [ intros b' Hb'; apply Hk; now right | ].
    eexists. split; [ reflexivity | ].
    constructor; [ | exact HF ]. split; [ reflexivity | eauto ].
Qed.

Lemma score_bids_unknown (median : list float -> float) (sol : Solicitation)
    (vendors : gmap string Vendor) (prices : list float)
    (pre : list Bid) (b : Bid) (post : list Bid) :
  (forall b', In b' pre -> exists v, vendors !! bid_vendor_id b' = Some v) ->
  vendors !! bid_vendor_id b = None ->
  score_bids median sol vendors prices (pre ++ b :: post) =
  Raised (KeyError (bid_vendor_id b)).
Proof.
  intros Hk Hb. induction pre as [| b' pre IH]; simpl.
  - now rewrite Hb.
  - destruct (Hk b' (or_introl eq_refl)) as (v & ->).
    rewrite IH; [ reflexivity | intros b'' H; apply Hk; now right ].
Qed.

(** * What the rules report *)

(** X12: the risk score lies between 0 and 100; it is at most 80 for a bid
    that passes compliance and at least 40 for a bid that fails it. *)
Theorem risk_score_bounds (median : list float -> float)
    (sol : Solicitation) (bid : Bid) (v : Vendor) (prices : list float) :
  let r := evaluate_bid_rules median sol bid v prices in
  0 <= risk_score r <= 100 /\
  (if compliance_pass r then risk_score r <= 80 else 40 <= risk_score r).
Proof.
  cbv zeta. rewrite evaluate_bid_rules_pass.
  destruct (evaluate_bid_rules_risk median sol bid v prices)
    as (soft & Hsoft & ->).
  unfold gates_pass.
  destruct (String.eqb (bid_solicitation_id bid) (solicitation_id sol)),
    (sam_registered v), (insurance_valid v), (technical_compliance bid);
    simpl; lia.
Qed.

Lemma sublist_map_filter {A B : Type} (f : A -> B) (P : A -> bool)
    (l : list A) :
  sublist (map f (List.filter P l)) (map f l).
Proof.
  induction l as [| x l IH]; simpl; [ constructor | ].
  destruct (P x); simpl; now constructor.
Qed.

(** X13: the reasons are reported in the order of the rules, each at most
    once: the list of reasons is a sublist of the reasons of the rule
    table. *)
Theorem reasons_in_rule_order (median : list float -> float)
    (sol : Solicitation) (bid : Bid) (v : Vendor) (prices : list float) :
  sublist (reasons (evaluate_bid_rules median sol bid v prices)) rule_reasons /\
  NoDup (reasons (evaluate_bid_rules median sol bid v prices)).
Proof.
  assert (H : sublist (reasons (evaluate_bid_rules median sol bid v prices))
                      rule_reasons).
  { rewrite evaluate_bid_rules_fired. cbv zeta. cbn [reasons].
    rewrite fold_fire_reasons. cbn [t_reasons]. rewrite app_nil_l.
    unfold rule_reasons.
    rewrite <- (fired_rules_table median sol bid v prices), map_map.
    cbn [fst snd]. apply sublist_map_filter. }
  split; [ exact H | ].
  refine (sublist_NoDup _ _ _ H).
  unfold rule_reasons, rule_table. cbn [map fst snd].
  repeat (apply NoDup_cons_2;
          [ rewrite list_elem_of_In; simpl; intuition discriminate | ]).
  apply NoDup_nil_2.
Qed.

(** * The winner *)

Lemma Forall2_In_l {A B : Type} (R : A -> B -> Prop) (l : list A)
    (k : list B) (x : A) :
  Forall2 R l k -> In x l -> exists y, In y k /\ R x y.
Proof.
  induction 1 as [| a b l k Hab _ IH]; intros Hx; [ destruct Hx | ].
  destruct Hx as [<- | Hx].
  - exists b. split; [ now left | exact Hab ].
  - destruct (IH Hx) as (y & Hy & HR). exists y. split; [ now right | exact HR ].
Qed.

Lemma Forall2_In_r {A B : Type} (R : A -> B -> Prop) (l : list A)
    (k : list B) (y : B) :
  Forall2 R l k -> In y k -> exists x, In x l /\ R x y.
Proof.
  induction 1 as [| a b l k Hab _ IH]; intros Hy; [ destruct Hy | ].
  destruct Hy as [<- | Hy].
  - exists a. split; [ now left | exact Hab ].
  - destruct (IH Hy) as (x & Hx & HR). exists x. split; [ now right | exact HR ].
Qed.

(** An entry of [scored] passes when the gates of its bid pass. *)
Lemma scored_as_pass (median : list float -> float) (sol : Solicitation)
    (vendors : gmap string Vendor) (prices : list float)
    (b : Bid) (br : Bid * RiskResult) (v : Vendor) :
  scored_as median sol vendors prices b br ->
  vendors !! bid_vendor_id b = Some v ->
  br = (b, evaluate_bid_rules median sol b v prices) /\
  compliance_pass (snd br) = gates_pass sol b v.
Proof.
  intros (E1 & v' & Ev' & E2) Ev. rewrite Ev in Ev'. injection Ev' as <-.
  split.
  - destruct br as [b' r]. simpl in E1, E2. now subst.
  - rewrite E2. apply evaluate_bid_rules_pass.
Qed.

(** The lookups of the sample. *)
Lemma demo_vendors_lookup :
  demo_vendors !! "VENDOR_ACME" = Some vendor_acme /\
  demo_vendors !! "VENDOR_BUDGET" = Some vendor_budget /\
  demo_vendors !! "VENDOR_FAST" = Some vendor_fast /\
  vendors_without_budget !! "VENDOR_ACME" = Some vendor_acme /\
  vendors_without_budget !! "VENDOR_BUDGET" = None.
Proof. repeat split; vm_compute; reflexivity. Qed.

(** X14: when every bid names a known vendor, some bid passes the gates
    and the prices are numbers, [choose_winner] returns a bid that passes
    the gates, with the evaluation of that bid against the prices of all
    bids; no compliant bid costs less, and the compliant bids listed before
    the winner cost more. *)
Theorem choose_winner_lowest_compliant (median : list float -> float)
    (sol : Solicitation) (bids : list Bid) (vendors : gmap string Vendor) :
  (forall b, In b bids -> exists v, vendors !! bid_vendor_id b = Some v) ->
  (exists b v, In b bids /\ vendors !! bid_vendor_id b = Some v /\
               gates_pass sol b v = true) ->
  (forall b, In b bids -> PrimFloat.is_nan (price_total b) = false) ->
  exists pre w post v,
    bids = pre ++ w :: post /\
    vendors !! bid_vendor_id w = Some v /\
    gates_pass sol w v = true /\
    choose_winner median sol bids vendors =
      Returned (w, evaluate_bid_rules median sol w v (map price_total bids)) /\
    (forall b u, In b pre -> vendors !! bid_vendor_id b = Some u ->
                 gates_pass sol b u = true ->
                 PrimFloat.ltb (price_total w) (price_total b) = true) /\
    (forall b u, In b post -> vendors !! bid_vendor_id b = Some u ->
                 gates_pass sol b u = true ->
                 PrimFloat.ltb (price_total b) (price_total w) = false).
Proof.
  intros Hk (b0 & v0 & Hb0 & Ev0 & Hg0) Hnan. unfold choose_winner. cbv zeta.
  destruct (score_bids_known median sol vendors (map price_total bids) bids Hk)
    as (scored & -> & HF).
  set (pass := fun br : Bid * RiskResult => compliance_pass (snd br)).
  assert (Hne : List.filter pass scored <> []).
  { destruct (Forall2_In_l _ _ _ _ HF Hb0) as (br & Hbr & Hs).
    destruct (scored_as_pass _ _ _ _ _ _ _ Hs Ev0) as (_ & Ep).
    intros E. assert (Hin : In br (List.filter pass scored)).
    { apply filter_In. split; [ exact Hbr | ]. unfold pass. congruence. }
    rewrite E in Hin. destruct Hin. }
  destruct (List.filter pass scored) as [| first rest] eqn:Ec;
    [ congruence | ].
  rewrite <- Ec.
  destruct (sort_by_price_hd (List.filter pass scored) first) as
    (cpre & w & cpost & El & Hhd & Hpre & Hpost).
  { congruence. }
  { intros x Hx. apply filter_In in Hx. destruct Hx as (Hx & _).
    destruct (Forall2_In_r _ _ _ _ HF Hx) as (b & Hb & (Eb & _)).
    rewrite Eb. now apply Hnan. }
  rewrite Hhd.
  destruct (filter_app_cons_inv _ _ _ _ _ El)
    as (s1 & s2 & -> & E1 & E2 & Pw).
  apply Forall2_app_inv_r in HF.
  destruct HF as (pre & l2 & HF1 & HF2 & ->).
  apply Forall2_cons_inv_r in HF2.
  destruct HF2 as (wb & post & Hw & HF2 & ->).
  destruct (Hk wb) as (v & Ev);
    [ apply in_or_app; right; now left | ].
  destruct (scored_as_pass _ _ _ _ _ _ _ Hw Ev) as (Ew & Epw).
  exists pre, wb, post, v. split; [ reflexivity | ].
  split; [ exact Ev | ].
  split; [ unfold pass in Pw; congruence | ].
  split; [ now rewrite Ew | ].
  subst w. simpl fst in Hpre, Hpost. split.
  - intros b u Hb Eu Hg.
    destruct (Forall2_In_l _ _ _ _ HF1 Hb) as (br & Hbr & Hs).
    destruct (scored_as_pass _ _ _ _ _ _ _ Hs Eu) as (Ebr & Ep).
    assert (Hin : In br cpre).
    { rewrite <- E1. apply filter_In. split; [ exact Hbr | ].
      unfold pass. congruence. }
    apply Hpre in Hin. now rewrite Ebr in Hin.
  - intros b u Hb Eu Hg.
    destruct (Forall2_In_l _ _ _ _ HF2 Hb) as (br & Hbr & Hs).
    destruct (scored_as_pass _ _ _ _ _ _ _ Hs Eu) as (Ebr & Ep).
    assert (Hin : In br cpost).
    { rewrite <- E2. apply filter_In. split; [ exact Hbr | ].
      unfold pass. congruence. }
    apply Hpost in Hin. now rewrite Ebr in Hin.
Qed.

Lemma choose_winner_lowest_compliant_witness :
  (forall b, In b demo_bids ->
     exists v, demo_vendors !! bid_vendor_id b = Some v) /\
  (exists b v, In b demo_bids /\ demo_vendors !! bid_vendor_id b = Some v /\
               gates_pass demo_solicitation b v = true) /\
  (forall b, In b demo_bids -> PrimFloat.is_nan (price_total b) = false) /\
  exists pre w post v,
    demo_bids = pre ++ w :: post /\
    demo_vendors !! bid_vendor_id w = Some v /\
    gates_pass demo_solicitation w v = true /\
    choose_winner statistics_median demo_solicitation demo_bids demo_vendors =
      Returned (w, evaluate_bid_rules statistics_median demo_solicitation w v
                     (map price_total demo_bids)) /\
    (forall b u, In b pre -> demo_vendors !! bid_vendor_id b = Some u ->
                 gates_pass demo_solicitation b u = true ->
                 PrimFloat.ltb (price_total w) (price_total b) = true) /\
    (forall b u, In b post -> demo_vendors !! bid_vendor_id b = Some u ->
                 gates_pass demo_solicitation b u = true ->
                 PrimFloat.ltb (price_total b) (price_total w) = false).
Proof.
  destruct demo_vendors_lookup as (E1 & E2 & E3 & _).
  assert (H1 : forall b, In b demo_bids ->
                 exists v, demo_vendors !! bid_vendor_id b = Some v).
  { intros b [<- | [<- | [<- | []]]]; eauto. }
  assert (H2 : exists b v, In b demo_bids /\
                 demo_vendors !! bid_vendor_id b = Some v /\
                 gates_pass demo_solicitation b v = true).
  { exists bid_001, vendor_acme.
    split; [ now left | ]. split; [ exact E1 | reflexivity ]. }
  assert (H3 : forall b, In b demo_bids ->
                 PrimFloat.is_nan (price_total b) = false).
  { intros b [<- | [<- | [<- | []]]]; reflexivity. }
  split; [ exact H1 | ]. split; [ exact H2 | ]. split; [ exact H3 | ].
  exact (choose_winner_lowest_compliant statistics_median demo_solicitation
           demo_bids demo_vendors H1 H2 H3).
Defined.

(** X15: when every bid names a known vendor and no bid passes the gates,
    as when there is no bid at all, [choose_winner] raises [ValueError]. *)
Theorem choose_winner_no_compliant (median : list float -> float)
    (sol : Solicitation) (bids : list Bid) (vendors : gmap string Vendor) :
  (forall b, In b bids ->
     exists v, vendors !! bid_vendor_id b = Some v /\
               gates_pass sol b v = false) ->
  choose_winner median sol bids vendors =
  Raised (ValueError
    "No compliant bids available. Manual contracting officer review required.").
Proof.
  intros Hk. unfold choose_winner. cbv zeta.
  destruct (score_bids_known median sol vendors (map price_total bids) bids)
    as (scored & -> & HF).
  { intros b Hb. destruct (Hk b Hb) as (v & Ev & _). eauto. }
  destruct (List.filter _ scored) as [| first rest] eqn:Ec; [ reflexivity | ].
  assert (Hin : In first (List.filter
                  (fun br : Bid * RiskResult => compliance_pass (snd br))
                  scored))
    by (rewrite Ec; now left).
  apply filter_In in Hin. destruct Hin as (Hin & Hp).
  destruct (Forall2_In_r _ _ _ _ HF Hin) as (b & Hb & Hs).
  destruct (Hk b Hb) as (v & Ev & Hg).
  destruct (scored_as_pass _ _ _ _ _ _ _ Hs Ev) as (_ & Ep).
  congruence.
Qed.

Lemma choose_winner_no_compliant_witness :
  (forall b, In b [bid_002] ->
     exists v, demo_vendors !! bid_vendor_id b = Some v /\
               gates_pass demo_solicitation b v = false) /\
  choose_winner statistics_median demo_solicitation [bid_002] demo_vendors =
  Raised (ValueError
    "No compliant bids available. Manual contracting officer review required.").
Proof.
  destruct demo_vendors_lookup as (_ & E2 & _).
  assert (H : forall b, In b [bid_002] ->
                exists v, demo_vendors !! bid_vendor_id b = Some v /\
                          gates_pass demo_solicitation b v = false).
  { intros b [<- | []]. exists vendor_budget. split; [ exact E2 | reflexivity ]. }
  split; [ exact H | ].
  exact (choose_winner_no_compliant statistics_median demo_solicitation
           [bid_002] demo_vendors H).
Defined.

(** X16: the first bid whose vendor is not in the lookup table makes
    [choose_winner] raise [KeyError] with that vendor id, whatever the
    other bids are. *)
Theorem choose_winner_unknown_vendor (median : list float -> float)
    (sol : Solicitation) (pre : list Bid) (b : Bid) (post : list Bid)
    (vendors : gmap string Vendor) :
  (forall b', In b' pre -> exists v, vendors !! bid_vendor_id b' = Some v) ->
  vendors !! bid_vendor_id b = None ->
  choose_winner median sol (pre ++ b :: post) vendors =
  Raised (KeyError (bid_vendor_id b)).
Proof.
  intros Hk Hb. unfold choose_winner. cbv zeta.
  now rewrite (score_bids_unknown median sol vendors _ pre b post Hk Hb).
Qed.

Lemma choose_winner_unknown_vendor_witness :
  (forall b', In b' [bid_001] ->
     exists v, vendors_without_budget !! bid_vendor_id b' = Some v) /\
  vendors_without_budget !! bid_vendor_id bid_002 = None /\
  choose_winner statistics_median demo_solicitation
                ([bid_001] ++ bid_002 :: [bid_003]) vendors_without_budget =
  Raised (KeyError (bid_vendor_id bid_002)).
Proof.
  destruct demo_vendors_lookup as (_ & _ & _ & E4 & E5).
  assert (H : forall b', In b' [bid_001] ->
                exists v, vendors_without_budget !! bid_vendor_id b' = Some v).
  { intros b' [<- | []]. eauto. }
  split; [ exact H | ]. split; [ exact E5 | ].
  exact (choose_winner_unknown_vendor statistics_median demo_solicitation
           [bid_001] bid_002 [bid_003] vendors_without_budget H E5).
Defined.
